(** * clockmail_viewer: the snapshot / rendering core of [cmv]

    A shallow embedding of [cmd/cmv/main.go],
    [internal/snapshot/snapshot.go] and [internal/datasource/watch.go],
    with the properties of the timeline analyzer, the diagram layout
    engine, the word wrapper, the snapshot builder, the navigation state
    machine and the change watcher.

    Conventions.  A Go [string] is a sequence of bytes and is indexed and
    sliced by byte offsets, so it is a [list ascii] here; [int] and [int64]
    are [Z]; a slice is a [list]; a Go [map] is a [gmap]; a panic or an
    exhausted loop budget is [None]. *)

From Stdlib Require Import ZArith Ascii String.
From stdpp Require Import gmap strings list fin_maps sorting.

Local Open Scope Z_scope.

(** ** Go strings *)

Abbreviation gostring := (list ascii).

(** A string literal of the source. *)
Definition str (s : string) : gostring := list_ascii_of_string s.

(** ** pkg/model: the records the viewer reads *)

(** [model.EventKind] is a string type with four named constants; any other
    tag is carried as it is. *)
Inductive EventKind :=
  | EventMsg
  | EventLockReq
  | EventLockRel
  | EventProgress
  | EventOther (tag : gostring).

Global Instance EventKind_eq_dec : EqDecision EventKind.
Proof. solve_decision. Defined.

Record Event := mkEvent {
  ID : Z;
  AgentID : gostring;
  LamportTS : Z;
  Kind : EventKind;
  Target : gostring;
  Body : gostring;
  Epoch : Z;
  Round : Z;
  CreatedAt : Z
}.

Record Agent := mkAgent {
  agID : gostring;
  agClock : Z;
  agEpoch : Z;
  agRound : Z;
  agRegistered : Z;
  agLastSeen : Z
}.

Record Lock := mkLock {
  lkPath : gostring;
  lkAgentID : gostring;
  lkLamportTS : Z;
  lkEpoch : Z;
  lkExclusive : bool;
  lkExpiresAt : Z
}.

Record Pointstamp := mkPointstamp {
  psEpoch : Z;
  psRound : Z;
  psAgentID : gostring
}.

(** ** Timeline analyzer *)

Module Timeline.

(** [timelineGroup]: events sharing the same Lamport timestamp. *)
Record timelineGroup := mkGroup {
  lamportTS : Z;
  events : list Event
}.

(** One iteration of the loop of [groupByLamport]: the state is the pair
    [(groups, current)]. *)
Definition groupStep (st : list timelineGroup * timelineGroup) (e : Event)
    : list timelineGroup * timelineGroup :=
  let '(groups, current) :=
    if bool_decide (LamportTS e ≠ lamportTS (st.2))
    then (st.1 ++ [st.2], mkGroup (LamportTS e) [])
    else st in
  (groups, mkGroup (lamportTS current) (events current ++ [e])).

Definition groupByLamport (evs : list Event) : list timelineGroup :=
  match evs with
  | [] => []
  | e0 :: _ =>
      let '(groups, current) := foldl groupStep ([], mkGroup (LamportTS e0) []) evs in
      groups ++ [current]
  end.

(** The loop of [isConcurrentGroup] over [g.events[1:]]. *)
Fixpoint differsFrom (first : gostring) (rest : list Event) : bool :=
  match rest with
  | [] => false
  | e :: rest' => if bool_decide (AgentID e ≠ first) then true else differsFrom first rest'
  end.

Definition isConcurrentGroup (g : timelineGroup) : bool :=
  match events g with
  | [] => false
  | e0 :: rest =>
      if bool_decide (length (events g) ≤ 1)%nat then false
      else differsFrom (AgentID e0) rest
  end.

(** [buildCausalSet]: the ids of the message sends. *)
Definition causalStep (causal : gmap Z bool) (e : Event) : gmap Z bool :=
  if bool_decide (Kind e = EventMsg) then <[ID e := true]> causal else causal.

Definition buildCausalSet (evs : list Event) : gmap Z bool :=
  foldl causalStep ∅ evs.

(** [causalIDs[e.ID]] in [renderTimeline]: a missing key reads as [false]. *)
Definition causalMarked (causal : gmap Z bool) (e : Event) : bool :=
  default false (causal !! ID e).

(** The events of the groups, in group order. *)
Definition flatten (gs : list timelineGroup) : list Event :=
  concat (map events gs).

(** A run: not empty, and every member carries the group's clock value. *)
Definition isRun (g : timelineGroup) : Prop :=
  events g ≠ [] ∧ Forall (λ e, LamportTS e = lamportTS g) (events g).

(** Neighbouring groups never share a clock value: no run can be extended. *)
Fixpoint neighboursDiffer (gs : list timelineGroup) : Prop :=
  match gs with
  | g1 :: ((g2 :: _) as rest) => lamportTS g1 ≠ lamportTS g2 ∧ neighboursDiffer rest
  | _ => True
  end.

(** The sample of the test-suite: clocks 1 1 2 3 3 3 of agents a b a a b c. *)
Definition sampleEvents : list Event :=
  [ mkEvent 1 (str "a") 1 EventMsg (str "b") (str "hi") 0 0 0;
    mkEvent 2 (str "b") 1 EventProgress [] [] 0 0 0;
    mkEvent 3 (str "a") 2 EventLockReq (str "main.go") [] 0 0 0;
    mkEvent 4 (str "a") 3 EventLockRel (str "main.go") [] 0 0 0;
    mkEvent 5 (str "b") 3 EventProgress [] [] 0 0 0;
    mkEvent 6 (str "c") 3 EventProgress [] [] 0 0 0 ].

(** The loop invariant: the closed groups and the open one are runs, and
    no two neighbours share a clock value. *)
Definition runsInv (st : list timelineGroup * timelineGroup) : Prop :=
  Forall isRun st.1 ∧ isRun st.2 ∧ neighboursDiffer (st.1 ++ [st.2]).

End Timeline.

(** ** Space-time diagram layout engine *)

Module Diagram.

(** [diagramCell]: what happened for one agent at one Lamport timestamp. *)
Record diagramCell := mkCell {
  event : Event;
  label : gostring
}.

(** [diagramMsg]: a message arrow. *)
Record diagramMsg := mkMsg {
  fromAgent : gostring;
  toAgent : gostring;
  body : gostring
}.

(** [diagramRow]: one Lamport timestamp row; [cells] is keyed by agent id. *)
Record diagramRow := mkRow {
  lamportTS : Z;
  cells : gmap gostring diagramCell;
  messages : list diagramMsg
}.

(** The [switch e.Kind] that picks the cell label. *)
Definition cellLabel (k : EventKind) : gostring :=
  match k with
  | EventMsg => str ">"
  | EventLockReq => str "L"
  | EventLockRel => str "U"
  | EventProgress => str "*"
  | EventOther _ => str "?"
  end.

(** [row.cells[e.AgentID] = diagramCell{event: e, label: label}]. *)
Definition setCell (row : diagramRow) (e : Event) : diagramRow :=
  mkRow (lamportTS row)
        (<[AgentID e := mkCell e (cellLabel (Kind e))]> (cells row))
        (messages row).

(** Track messages for arrows. *)
Definition trackMessage (row : diagramRow) (e : Event) : diagramRow :=
  if bool_decide (Kind e = EventMsg) && bool_decide (Target e ≠ [])
  then mkRow (lamportTS row) (cells row)
             (messages row ++ [mkMsg (AgentID e) (Target e) (Body e)])
  else row.

(** One iteration of the event loop of [buildDiagramData].  The state is
    [(rowMap, timestamps)].  [rowMap] holds pointers to rows, and the row
    is updated through the pointer: here the updated row is stored back
    under its key. *)
Definition placeEvent (st : gmap Z diagramRow * list Z) (e : Event)
    : gmap Z diagramRow * list Z :=
  let ts := LamportTS e in
  let '(row, rowMap, timestamps) :=
    match st.1 !! ts with
    | Some row => (row, st.1, st.2)
    | None =>
        let row := mkRow ts ∅ [] in
        (row, <[ts := row]> st.1, st.2 ++ [ts])
    end in
  (<[ts := trackMessage (setCell row e) e]> rowMap, timestamps).

(** The inner loop of [sortInt64s]:
    [for j := i; j > 0 && s[j] < s[j-1]; j-- { swap }].
    Both indices are in range whenever the loop runs ([j <= i < len(s)]);
    the last branch is never taken. *)
Fixpoint sinkDown (j : nat) (s : list Z) : list Z :=
  match j with
  | O => s
  | S j' =>
      match s !! j, s !! j' with
      | Some a, Some b =>
          if bool_decide (a < b) then sinkDown j' (<[j' := a]> (<[j := b]> s)) else s
      | _, _ => s
      end
  end.

(** [sortInt64s]: the outer loop [for i := 1; i < len(s); i++]. *)
Definition sortInt64s (s : list Z) : list Z :=
  foldl (λ s i, sinkDown i s) s (seq 1 (length s - 1)).

(** [buildDiagramData].  [*rowMap[ts]] dereferences the pointer found in
    the map: a missing key is a nil dereference, [None] here. *)
Definition buildDiagramData (agents : list Agent) (evs : list Event)
    : option (list gostring * list diagramRow) :=
  let agentOrder := map agID agents in
  let '(rowMap, timestamps) := foldl placeEvent (∅, []) evs in
  rows ← mapM (λ ts, rowMap !! ts) (sortInt64s timestamps);
  Some (agentOrder, rows).

(** The cell an event writes. *)
Definition cellOf (e : Event) : diagramCell := mkCell e (cellLabel (Kind e)).

(** The last event of the list at a given clock value and agent. *)
Definition lastAt (ts : Z) (ag : gostring) (evs : list Event) : option Event :=
  last (filter (λ e, LamportTS e = ts ∧ AgentID e = ag) evs).

(** What the loop has built after the events [evs]: one timestamp, and one
    row, per clock value seen, and in a row the cell of an agent is the
    one written by the last event of that agent at that clock value. *)
Definition placedInv (evs : list Event) (st : gmap Z diagramRow * list Z) : Prop :=
  NoDup st.2 ∧
  (∀ ts, ts ∈ st.2 ↔ ts ∈ map LamportTS evs) ∧
  (∀ ts, is_Some (st.1 !! ts) ↔ ts ∈ st.2) ∧
  (∀ ts row, st.1 !! ts = Some row →
     lamportTS row = ts ∧ ∀ ag, cells row !! ag = cellOf <$> lastAt ts ag evs).

(** The sample of the test-suite, listed out of clock order. *)
Definition shuffledEvents : list Event :=
  [ mkEvent 3 (str "alice") 5 EventProgress [] [] 0 0 0;
    mkEvent 2 (str "bob") 2 EventMsg (str "alice") (str "reply") 0 0 0;
    mkEvent 4 (str "bob") 5 EventLockReq (str "file.go") [] 0 0 0;
    mkEvent 1 (str "alice") 1 EventMsg (str "bob") (str "hello") 0 0 0 ].

(** Two events of one agent at one clock value: a message, then a
    heartbeat. *)
Definition overwrittenEvents : list Event :=
  [ mkEvent 1 (str "alice") 1 EventMsg (str "bob") (str "hello") 0 0 0;
    mkEvent 2 (str "alice") 1 EventProgress [] [] 0 0 0 ].

End Diagram.

(** ** Word wrapping and truncation *)

Module Wrap.

Definition space : ascii := " "%char.
Definition newline : ascii := "010"%char.

(** [strings.Split(s, sep)] of the Go standard library, for a separator of
    one byte: the pieces between the separators, one more piece than there
    are separators. *)
Fixpoint splitOn (sep : ascii) (s : gostring) : list gostring :=
  match s with
  | [] => [[]]
  | c :: s' =>
      if decide (c = sep) then [] :: splitOn sep s'
      else match splitOn sep s' with
           | p :: ps => (c :: p) :: ps
           | [] => [[c]]
           end
  end.

(** The search for a break in [wrapParagraph]:
    [cut := -1; for i := width; i > 0; i-- { if s[i] == ' ' { cut = i; break } }].
    An index out of range panics ([None]). *)
Fixpoint findCut (s : gostring) (i : nat) : option Z :=
  match i with
  | O => Some (-1)
  | S i' =>
      c ← s !! i;
      if decide (c = space) then Some (Z.of_nat i) else findCut s i'
  end.

(** The loop [for len(s) > 0] of [wrapParagraph], with the lines collected
    so far.  The loop has no bound of its own: [fuel] bounds the number of
    iterations, and running out of it is [None]. *)
Fixpoint wrapLoop (fuel : nat) (s : gostring) (width : Z) (lines : list gostring)
    : option (list gostring) :=
  match fuel with
  | O => None
  | S fuel' =>
      if bool_decide (0 < length s)%nat then
        if bool_decide (Z.of_nat (length s) ≤ width) then Some (lines ++ [s])
        else
          cut ← findCut s (Z.to_nat width);
          if bool_decide (cut ≤ 0) then
            wrapLoop fuel' (drop (Z.to_nat width) s) width
                     (lines ++ [take (Z.to_nat width) s])
          else
            wrapLoop fuel' (drop (Z.to_nat (cut + 1)) s) width
                     (lines ++ [take (Z.to_nat cut) s])
      else Some lines
  end.

(** [wrapParagraph]: one iteration per line, and one more to see the empty
    rest. *)
Definition wrapParagraph (s : gostring) (width : Z) : option (list gostring) :=
  if bool_decide (Z.of_nat (length s) ≤ width) then Some [s]
  else wrapLoop (S (length s)) s width [].

(** The loop of [wrapText] over the paragraphs. *)
Fixpoint wrapParagraphs (paragraphs : list gostring) (width : Z) (lines : list gostring)
    : option (list gostring) :=
  match paragraphs with
  | [] => Some lines
  | para :: rest =>
      ls ← wrapParagraph para width;
      wrapParagraphs rest width (lines ++ ls)
  end.

Definition wrapText (s : gostring) (width : Z) : option (list gostring) :=
  let width := if bool_decide (width ≤ 0) then 80 else width in
  wrapParagraphs (splitOn newline s) width [].

(** [truncate]; [s[:n]] panics for a negative [n]. *)
Definition truncate (s : gostring) (n : Z) : option gostring :=
  if bool_decide (Z.of_nat (length s) ≤ n) then Some s
  else if bool_decide (n < 0) then None
  else Some (take (Z.to_nat n) s ++ str "...").

(** What a line of the wrapped text was followed by in the body: nothing
    (a hard split, or the end of the body), the space consumed at a word
    break, the newline that ended its paragraph, or both. *)
Inductive lineBreak := NoBreak | SpaceBreak | NewlineBreak | SpaceNewlineBreak.

Definition breakText (b : lineBreak) : gostring :=
  match b with
  | NoBreak => []
  | SpaceBreak => [space]
  | NewlineBreak => [newline]
  | SpaceNewlineBreak => [space; newline]
  end.

(** The lines put back together, each followed by its break. *)
Definition rejoin (pieces : list (gostring * lineBreak)) : gostring :=
  concat (map (λ p, p.1 ++ breakText p.2) pieces).

(** A break inside a paragraph. *)
Definition inParagraph (b : lineBreak) : Prop := b = NoBreak ∨ b = SpaceBreak.

(** The paragraphs with a newline between neighbours. *)
Fixpoint joinLines (paragraphs : list gostring) : gostring :=
  match paragraphs with
  | [] => []
  | [p] => p
  | p :: rest => p ++ newline :: joinLines rest
  end.

(** The newline that ended a paragraph goes to the last line of the
    paragraph. *)
Definition withNewline (b : lineBreak) : lineBreak :=
  match b with
  | NoBreak => NewlineBreak
  | SpaceBreak => SpaceNewlineBreak
  | b => b
  end.

End Wrap.

(** ** Snapshot builder *)

Module Snapshot.

(** A Go result [(T, error)]. *)
Inductive result (A : Type) : Type :=
  | Ok (a : A)
  | Err (err : gostring).
Arguments Ok {A} a.
Arguments Err {A} err.

Global Instance result_bind : MBind result := λ A B k r,
  match r with
  | Ok a => k a
  | Err err => Err err
  end.

(** [frontier.FrontierStatus]. *)
Record FrontierStatus := mkFrontierStatus {
  SafeToFinalize : bool;
  BlockedBy : list Pointstamp
}.

(** The read queries of [store.Store] that [Build] calls, as a store in a
    given state answers them.  The store is an external package. *)
Record Store := mkStore {
  ListAgents : result (list Agent);
  MaxEventID : Z;
  ListEventsSinceID : Z → Z → result (list Event);
  ListLocks : result (list Lock);
  GetActivePointstamps : result (list Pointstamp);
  CountEvents : Z
}.

(** [DataSnapshot]. *)
Record DataSnapshot := mkSnapshot {
  Agents : list Agent;
  Events : list Event;
  Locks : list Lock;
  Frontier : list Pointstamp;
  FrontierStatusOf : gmap gostring FrontierStatus;
  ActiveAgents : Z;
  StaleAgents : Z;
  TotalEvents : Z;
  ActiveLocks : Z;
  BuiltAt : Z
}.

(** [int64] arithmetic wraps around. *)
Definition wrap64 (z : Z) : Z := (z + 2 ^ 63) mod 2 ^ 64 - 2 ^ 63.

Definition eventLimit : Z := 500.

(** [10 * time.Minute], in nanoseconds. *)
Definition staleAfter : Z := 10 * 60 * 1000000000.

Section Build.

(** [frontier.ComputeFrontier] and [frontier.ComputeFrontierStatus] are
    external; [now] is the reading of the clock. *)
Variable ComputeFrontier : list Pointstamp → list Pointstamp.
Variable ComputeFrontierStatus : gostring → Z * Z → list Pointstamp → FrontierStatus.
Variable now : Z.

(** The loop that fills [fStatus]. *)
Definition frontierStatusStep (active : list Pointstamp)
    (fStatus : gmap gostring FrontierStatus) (ag : Agent) : gmap gostring FrontierStatus :=
  <[agID ag := ComputeFrontierStatus (agID ag) (agEpoch ag, agRound ag) active]> fStatus.

(** The loop that counts active and stale agents. *)
Definition countStep (counts : Z * Z) (ag : Agent) : Z * Z :=
  if bool_decide (now - agLastSeen ag > staleAfter)
  then (counts.1, counts.2 + 1)
  else (counts.1 + 1, counts.2).

(** [Build]. *)
Definition Build (s : Store) : result DataSnapshot :=
  agents ← ListAgents s;
  let maxID := MaxEventID s in
  let sinceID := wrap64 (maxID - eventLimit) in
  let sinceID := if bool_decide (sinceID < 0) then 0 else sinceID in
  events ← ListEventsSinceID s sinceID eventLimit;
  locks ← ListLocks s;
  active ← GetActivePointstamps s;
  let f := ComputeFrontier active in
  let fStatus := foldl (frontierStatusStep active) ∅ agents in
  let counts := foldl countStep (0, 0) agents in
  Ok (mkSnapshot agents events locks f fStatus counts.1 counts.2
        (CountEvents s) (Z.of_nat (length locks)) now).

End Build.

(** Modelled from the spec: the event table of the external store, which
    is not part of this repository.  The table lists the events in the
    order of the store, each under its own id; an id is a positive [int64];
    "list the most recent N events anchored at a given id with a limit"
    returns the events after the anchor id, at most [limit] of them, in
    the order of the table; the count query counts the rows, whatever
    their ids; the maximum id of an empty table is 0. *)
Definition tableStore (agents : list Agent) (table : list Event) (locks : list Lock)
    (active : list Pointstamp) : Store :=
  mkStore (Ok agents)
          (foldr Z.max 0 (map ID table))
          (λ sinceID limit,
             Ok (take (Z.to_nat limit) (filter (λ e, sinceID < ID e) table)))
          (Ok locks) (Ok active)
          (Z.of_nat (length table)).

Definition validTable (table : list Event) : Prop :=
  NoDup (map ID table) ∧ Forall (λ e, 0 < ID e < 2 ^ 63) table.

(** Three events left in a table after deletions: the ids have gaps. *)
Definition gappedTable : list Event :=
  [ mkEvent 3 (str "alice") 1 EventMsg (str "bob") (str "hello") 0 0 0;
    mkEvent 7 (str "bob") 2 EventProgress [] [] 0 0 0;
    mkEvent 900 (str "alice") 3 EventLockReq (str "main.go") [] 0 0 0 ].

End Snapshot.

(** ** Navigation state machine *)

Module Nav.
Import Snapshot.

(** [viewID] and its constants ([iota]). *)
Definition viewDashboard : Z := 0.
Definition viewMessages : Z := 1.
Definition viewLocks : Z := 2.
Definition viewFrontier : Z := 3.
Definition viewTimeline : Z := 4.
Definition viewDiagram : Z := 5.
Definition viewCount : Z := 6.
Definition viewAgentDetail : Z := 7.

(** [uiModel], without the handles of the store and of the watcher (they
    are only closed on quit) and without the help widget but for its
    width. *)
Record uiModel := mkModel {
  snap : DataSnapshot;
  activeView : Z;
  prevView : Z;
  width : Z;
  height : Z;
  scrollPos : Z;
  selectedAgent : Z;
  detailAgentID : gostring;
  filterAgent : gostring;
  refreshInterval : Z;
  helpWidth : Z;
  showHelp : bool;
  lastRefresh : Z
}.

Definition setSnap (m : uiModel) (v : DataSnapshot) : uiModel :=
  mkModel v (activeView m) (prevView m) (width m) (height m) (scrollPos m)
    (selectedAgent m) (detailAgentID m) (filterAgent m) (refreshInterval m)
    (helpWidth m) (showHelp m) (lastRefresh m).
Definition setActiveView (m : uiModel) (v : Z) : uiModel :=
  mkModel (snap m) v (prevView m) (width m) (height m) (scrollPos m)
    (selectedAgent m) (detailAgentID m) (filterAgent m) (refreshInterval m)
    (helpWidth m) (showHelp m) (lastRefresh m).
Definition setPrevView (m : uiModel) (v : Z) : uiModel :=
  mkModel (snap m) (activeView m) v (width m) (height m) (scrollPos m)
    (selectedAgent m) (detailAgentID m) (filterAgent m) (refreshInterval m)
    (helpWidth m) (showHelp m) (lastRefresh m).
Definition setSize (m : uiModel) (w h : Z) : uiModel :=
  mkModel (snap m) (activeView m) (prevView m) w h (scrollPos m)
    (selectedAgent m) (detailAgentID m) (filterAgent m) (refreshInterval m)
    w (showHelp m) (lastRefresh m).
Definition setScrollPos (m : uiModel) (v : Z) : uiModel :=
  mkModel (snap m) (activeView m) (prevView m) (width m) (height m) v
    (selectedAgent m) (detailAgentID m) (filterAgent m) (refreshInterval m)
    (helpWidth m) (showHelp m) (lastRefresh m).
Definition setSelectedAgent (m : uiModel) (v : Z) : uiModel :=
  mkModel (snap m) (activeView m) (prevView m) (width m) (height m) (scrollPos m)
    v (detailAgentID m) (filterAgent m) (refreshInterval m)
    (helpWidth m) (showHelp m) (lastRefresh m).
Definition setDetailAgentID (m : uiModel) (v : gostring) : uiModel :=
  mkModel (snap m) (activeView m) (prevView m) (width m) (height m) (scrollPos m)
    (selectedAgent m) v (filterAgent m) (refreshInterval m)
    (helpWidth m) (showHelp m) (lastRefresh m).
Definition setFilterAgent (m : uiModel) (v : gostring) : uiModel :=
  mkModel (snap m) (activeView m) (prevView m) (width m) (height m) (scrollPos m)
    (selectedAgent m) (detailAgentID m) v (refreshInterval m)
    (helpWidth m) (showHelp m) (lastRefresh m).
Definition setShowHelp (m : uiModel) (v : bool) : uiModel :=
  mkModel (snap m) (activeView m) (prevView m) (width m) (height m) (scrollPos m)
    (selectedAgent m) (detailAgentID m) (filterAgent m) (refreshInterval m)
    (helpWidth m) v (lastRefresh m).
Definition setLastRefresh (m : uiModel) (v : Z) : uiModel :=
  mkModel (snap m) (activeView m) (prevView m) (width m) (height m) (scrollPos m)
    (selectedAgent m) (detailAgentID m) (filterAgent m) (refreshInterval m)
    (helpWidth m) (showHelp m) v.

(** The messages [Update] distinguishes.  [snapshotReadyMsg] carries a
    pointer that may be nil and an error that may be nil. *)
Inductive Msg :=
  | KeyMsg (key : gostring)
  | WindowSizeMsg (w h : Z)
  | dbChangedMsg
  | snapshotReadyMsg (newSnap : option DataSnapshot) (err : option gostring)
  | tickMsg
  | otherMsg.

(** The commands [Update] returns. *)
Inductive Cmd := cmdNil | cmdQuit | cmdRefreshSnapshot | cmdTickEvery.

(** [viewKeys]. *)
Definition viewKeys (key : gostring) : option Z :=
  if decide (key = str "d") then Some viewDashboard
  else if decide (key = str "m") then Some viewMessages
  else if decide (key = str "l") then Some viewLocks
  else if decide (key = str "f") then Some viewFrontier
  else if decide (key = str "t") then Some viewTimeline
  else if decide (key = str "s") then Some viewDiagram
  else None.

(** [key.Matches] against the keys of a binding of [keys]. *)
Definition matches (key : gostring) (binding : list gostring) : bool :=
  bool_decide (key ∈ binding).

Definition keysQuit : list gostring := [str "q"; str "ctrl+c"].
Definition keysTab : list gostring := [str "tab"].
Definition keysRefresh : list gostring := [str "r"].
Definition keysUp : list gostring := [str "up"; str "k"].
Definition keysDown : list gostring := [str "down"; str "j"].
Definition keysHelp : list gostring := [str "?"].
Definition keysEnter : list gostring := [str "enter"].
Definition keysEsc : list gostring := [str "esc"].
Definition keysFilter : list gostring := [str "/"].

Definition filterable (v : Z) : bool :=
  bool_decide (v = viewMessages) || bool_decide (v = viewTimeline).

(** The loop of the filter key: the agent after the current one, or no
    filter after the last agent and when the current one is not listed. *)
Fixpoint nextFilter (agents : list Agent) (current : gostring) : gostring :=
  match agents with
  | [] => []
  | ag :: rest =>
      if bool_decide (agID ag = current) then
        match rest with
        | next :: _ => agID next
        | [] => []
        end
      else nextFilter rest current
  end.

Definition agentCount (m : uiModel) : Z := Z.of_nat (length (Agents (snap m))).

(** [Update] on a key that is not a view shortcut. *)
Definition updateKey (m : uiModel) (key : gostring) : uiModel * Cmd :=
  if matches key keysQuit then (m, cmdQuit)
  else if matches key keysEsc then
    if bool_decide (activeView m = viewAgentDetail)
    then (setScrollPos (setDetailAgentID (setActiveView m viewDashboard) []) 0, cmdNil)
    else (m, cmdNil)
  else if matches key keysEnter then
    if bool_decide (activeView m = viewDashboard) && bool_decide (agentCount m > 0) then
      if bool_decide (selectedAgent m >= 0) && bool_decide (selectedAgent m < agentCount m) then
        match Agents (snap m) !! Z.to_nat (selectedAgent m) with
        | Some ag =>
            (setScrollPos
               (setActiveView (setPrevView (setDetailAgentID m (agID ag)) (activeView m))
                  viewAgentDetail) 0, cmdNil)
        | None => (m, cmdNil)
        end
      else (m, cmdNil)
    else (m, cmdNil)
  else if matches key keysTab then
    let m :=
      if bool_decide (activeView m = viewAgentDetail)
      then setDetailAgentID (setActiveView m viewDashboard) []
      else setActiveView m (Z.rem (wrap64 (activeView m + 1)) viewCount) in
    let m := if filterable (activeView m) then m else setFilterAgent m [] in
    (setScrollPos m 0, cmdNil)
  else if matches key keysRefresh then (m, cmdRefreshSnapshot)
  else if matches key keysUp then
    if bool_decide (activeView m = viewDashboard) then
      if bool_decide (selectedAgent m > 0)
      then (setSelectedAgent m (selectedAgent m - 1), cmdNil) else (m, cmdNil)
    else
      if bool_decide (scrollPos m > 0)
      then (setScrollPos m (scrollPos m - 1), cmdNil) else (m, cmdNil)
  else if matches key keysDown then
    if bool_decide (activeView m = viewDashboard) then
      if bool_decide (selectedAgent m < agentCount m - 1)
      then (setSelectedAgent m (selectedAgent m + 1), cmdNil) else (m, cmdNil)
    else
      let maxScroll :=
        wrap64 (wrap64 (wrap64 (wrap64 (TotalEvents (snap m) + agentCount m)
                                  + Z.of_nat (length (Locks (snap m)))) * 8) + 20) in
      if bool_decide (scrollPos m < maxScroll)
      then (setScrollPos m (scrollPos m + 1), cmdNil) else (m, cmdNil)
  else if matches key keysFilter then
    if filterable (activeView m) then
      let m :=
        if bool_decide (filterAgent m = []) && bool_decide (agentCount m > 0)
        then setFilterAgent m (default [] (agID <$> head (Agents (snap m))))
        else setFilterAgent m (nextFilter (Agents (snap m)) (filterAgent m)) in
      (setScrollPos m 0, cmdNil)
    else (m, cmdNil)
  else if matches key keysHelp then (setShowHelp m (negb (showHelp m)), cmdNil)
  else (m, cmdNil).

(** [uiModel.Update]; [now] is what [time.Now()] reads. *)
Definition Update (now : Z) (m : uiModel) (msg : Msg) : uiModel * Cmd :=
  match msg with
  | KeyMsg key =>
      match viewKeys key with
      | Some v =>
          let m := setDetailAgentID (setScrollPos (setActiveView m v) 0) [] in
          let m := if filterable v then m else setFilterAgent m [] in
          (m, cmdNil)
      | None => updateKey m key
      end
  | WindowSizeMsg w h => (setSize m w h, cmdNil)
  | dbChangedMsg => (m, cmdRefreshSnapshot)
  | snapshotReadyMsg newSnap err =>
      match err, newSnap with
      | None, Some sn =>
          let m := setLastRefresh (setSnap m sn) now in
          let m :=
            if bool_decide (agentCount m = 0) then setSelectedAgent m 0
            else if bool_decide (selectedAgent m >= agentCount m)
                 then setSelectedAgent m (agentCount m - 1)
                 else m in
          (m, cmdNil)
      | _, _ => (m, cmdNil)
      end
  | tickMsg => (m, cmdTickEvery)
  | otherMsg => (m, cmdNil)
  end.

(** [newModel]: every field of the navigation state starts at its zero
    value. *)
Definition newModel (sn : DataSnapshot) (now : Z) : uiModel :=
  mkModel sn 0 0 0 0 0 0 [] [] 0 0 false now.

(** The first agent with the given id, as the [--agent] loop of [main]
    finds it. *)
Fixpoint findAgent (agents : list Agent) (id : gostring) (i : nat) : option (nat * Agent) :=
  match agents with
  | [] => None
  | ag :: rest => if bool_decide (agID ag = id) then Some (i, ag) else findAgent rest id (S i)
  end.

(** The model [main] hands to the program: [newModel], the refresh
    interval, the view of [--view] and the agent of [--agent]. *)
Definition startModel (sn : DataSnapshot) (now refresh : Z) (viewFlag : option Z)
    (agentFlag : gostring) : uiModel :=
  let m := newModel sn now in
  let m := mkModel (snap m) (activeView m) (prevView m) (width m) (height m)
             (scrollPos m) (selectedAgent m) (detailAgentID m) (filterAgent m)
             refresh (helpWidth m) (showHelp m) (lastRefresh m) in
  let m := match viewFlag with Some v => setActiveView m v | None => m end in
  if bool_decide (agentFlag ≠ []) then
    match findAgent (Agents sn) agentFlag 0 with
    | Some (i, ag) =>
        setActiveView (setDetailAgentID (setSelectedAgent m (Z.of_nat i)) (agID ag))
          viewAgentDetail
    | None => m
    end
  else m.

(** The states of the navigation state machine: the start states, and
    what [Update] makes of them. *)
Inductive reachable : uiModel → Prop :=
  | reachable_start sn now refresh viewFlag agentFlag :
      reachable (startModel sn now refresh viewFlag agentFlag)
  | reachable_update m now msg :
      reachable m → reachable (Update now m msg).1.

(** The agent-selection index is in range for the snapshot of the model. *)
Definition selectionInRange (m : uiModel) : Prop :=
  0 ≤ selectedAgent m < agentCount m ∨ (agentCount m = 0 ∧ selectedAgent m = 0).

Definition alice : Agent := mkAgent (str "alice") 10 1 0 0 0.
Definition bob : Agent := mkAgent (str "bob") 5 0 0 0 0.

Definition snapshotOf (agents : list Agent) : DataSnapshot :=
  mkSnapshot agents [] [] [] ∅ (Z.of_nat (length agents)) 0 4 0 0.

(** The scenario of the test-suite: the cursor is on the second of two
    agents when a snapshot with one agent arrives. *)
Definition onSecondAgent : uiModel :=
  (Update 0 (startModel (snapshotOf [alice; bob]) 0 2 None []) (KeyMsg (str "j"))).1.

End Nav.

(** ** Agent-Detail view *)

Module Detail.
Import Wrap Snapshot Nav.

Section Render.

(** The lipgloss styles ([Style.Render]) and the [fmt] verbs the view
    uses are library code: they are taken as they come. *)
Variables dimStyle msgToStyle msgFromStyle lockStyle detailSectionStyle
  detailHeaderStyle safeStyle unsafeStyle : gostring → gostring.
(** [%d] and [%-4d]. *)
Variables fmtInt fmtIntPad4 : Z → gostring.
(** [%q]. *)
Variable fmtQuoted : gostring → gostring.
(** [%s] of an [EventKind]. *)
Variable kindText : EventKind → gostring.
(** [time.Since] and [time.Until] read the clock of the machine: the
    first argument numbers the readings made while the view is rendered,
    so that two readings need not agree. *)
Variables timeSince timeUntil : nat → Z → Z.
(** [int(d.Seconds())], [int(d.Minutes())] and [int(d.Hours())]: the
    [float64] readings of a [time.Duration], converted to [int]. *)
Variables intSeconds intMinutes intHours : Z → Z.

(** [time.Minute] and [time.Hour], in nanoseconds. *)
Definition minute : Z := 60 * 1000000000.
Definition hour : Z := 60 * minute.

(** [shortDuration]. *)
Definition shortDuration (d : Z) : gostring :=
  if bool_decide (d < 0) then str "expired"
  else if bool_decide (d < minute) then fmtInt (intSeconds d) ++ str "s"
  else if bool_decide (d < hour) then
    fmtInt (intMinutes d) ++ str "m" ++ fmtInt (Z.rem (intSeconds d) 60) ++ str "s"
  else fmtInt (intHours d) ++ str "h" ++ fmtInt (Z.rem (intMinutes d) 60) ++ str "m".

(** [strings.Join]. *)
Fixpoint joinWith (sep : gostring) (parts : list gostring) : gostring :=
  match parts with
  | [] => []
  | [p] => p
  | p :: rest => p ++ sep ++ joinWith sep rest
  end.

(** The loop that looks for the agent:
    [for i := range m.snap.Agents { if ...ID == agentID { agent = &...; break } }]. *)
Fixpoint lookupAgent (agents : list Agent) (agentID : gostring) : option Agent :=
  match agents with
  | [] => None
  | ag :: rest => if bool_decide (agID ag = agentID) then Some ag else lookupAgent rest agentID
  end.

(** The header: the name, the badge, the clock line.  The clock is read
    once for the badge and once for "Last seen". *)
Definition renderHeader (agent : Agent) : gostring :=
  let stale := bool_decide (timeSince 0 (agLastSeen agent) > staleAfter) in
  let statusBadge := if stale then unsafeStyle (str "STALE") else safeStyle (str "ACTIVE") in
  detailHeaderStyle (str "Agent: " ++ agID agent) ++ str "  " ++ statusBadge ++ [newline] ++
  dimStyle (str "  Lamport clock: " ++ fmtInt (agClock agent) ++
            str " | Progress: e" ++ fmtInt (agEpoch agent) ++
            str "/r" ++ fmtInt (agRound agent) ++
            str " | Last seen: " ++ shortDuration (timeSince 1 (agLastSeen agent)) ++
            str " ago") ++ [newline].

(** One blocker of the frontier line. *)
Definition blockerText (bl : Pointstamp) : gostring :=
  psAgentID bl ++ str "@e" ++ fmtInt (psEpoch bl) ++ str "/r" ++ fmtInt (psRound bl).

(** The frontier line; nothing is written for an agent without a status. *)
Definition renderFrontierLine (sn : DataSnapshot) (agent : Agent) (agentID : gostring)
    : gostring :=
  match FrontierStatusOf sn !! agentID with
  | Some fs =>
      if SafeToFinalize fs then
        str "  Frontier: " ++ safeStyle (str "SAFE") ++
        str " (epoch=" ++ fmtInt (agEpoch agent) ++
        str " round=" ++ fmtInt (agRound agent) ++ str ")" ++ [newline]
      else
        str "  Frontier: " ++ unsafeStyle (str "BLOCKED") ++ str " by " ++
        joinWith (str ", ") (map blockerText (BlockedBy fs)) ++ [newline]
  | None => []
  end.

(** One iteration of the loop over the locks; the state is what the loop
    has written and [agentLocks].  Two readings of the clock were made for
    the header, and one is made for each lock of the agent. *)
Definition locksStep (agentID : gostring) (st : gostring * nat) (l : Lock) : gostring * nat :=
  if bool_decide (lkAgentID l = agentID) then
    (st.1 ++
     lockStyle (str "  " ++ lkPath l ++ str "  (L:" ++ fmtInt (lkLamportTS l) ++
                str ", expires in " ++
                shortDuration (timeUntil (2 + st.2) (lkExpiresAt l)) ++ str ")") ++
     [newline],
     S st.2)
  else st.

(** "Locks Held". *)
Definition renderLocksHeld (agentID : gostring) (locks : list Lock) : gostring :=
  let st := foldl (locksStep agentID) ([], 0%nat) locks in
  detailSectionStyle (str "Locks Held") ++ [newline] ++ st.1 ++
  (if bool_decide (st.2 = 0%nat) then dimStyle (str "  (none)") ++ [newline] else []).

(** [body := e.Body; if len(body) > 80 { body = body[:80] + "..." }]. *)
Definition clipBody (body : gostring) : gostring :=
  if bool_decide (80 < length body)%nat then take 80 body ++ str "..." else body.

(** One entry of "Messages Sent". *)
Definition sentEntry (e : Event) : gostring :=
  str "  " ++ dimStyle (str "[L:" ++ fmtInt (LamportTS e) ++ str "]") ++
  str " -> " ++ msgToStyle (Target e) ++ str ": " ++ clipBody (Body e) ++ [newline].

(** One entry of "Messages Received". *)
Definition recvEntry (e : Event) : gostring :=
  str "  " ++ dimStyle (str "[L:" ++ fmtInt (LamportTS e) ++ str "]") ++
  str " " ++ msgFromStyle (AgentID e) ++ str ": " ++ clipBody (Body e) ++ [newline].

(** One entry of "Recent Activity"; it calls [truncate]. *)
Definition activityDetail (e : Event) : option gostring :=
  match Kind e with
  | EventMsg =>
      body ← truncate (Body e) 60;
      Some (str "-> " ++ Target e ++ str ": " ++ body)
  | EventLockReq => Some (lockStyle (str "lock " ++ Target e))
  | EventLockRel => Some (dimStyle (str "unlock " ++ Target e))
  | EventProgress =>
      Some (dimStyle (str "heartbeat e=" ++ fmtInt (Epoch e) ++ str " r=" ++ fmtInt (Round e)))
  | EventOther _ => Some (kindText (Kind e) ++ str " " ++ Target e)
  end.

Definition activityEntry (e : Event) : option gostring :=
  detail ← activityDetail e;
  Some (str "  " ++ dimStyle (str "[L:" ++ fmtIntPad4 (LamportTS e) ++ str "]") ++
        str " " ++ detail ++ [newline]).

(** The three loops [for i := len(events)-1; i >= 0 && count < limit; i--]
    share one shape: the events are walked from the newest to the oldest,
    an event that passes the test of the loop adds its entry and counts,
    and the loop stops at [limit] entries. *)
Fixpoint entriesLoop (selected : Event → bool) (entry : Event → option gostring)
    (limit : nat) (newestFirst : list Event) (count : nat) : option (list gostring) :=
  match newestFirst with
  | [] => Some []
  | e :: older =>
      if bool_decide (count < limit)%nat then
        if selected e then
          line ← entry e;
          rest ← entriesLoop selected entry limit older (S count);
          Some (line :: rest)
        else entriesLoop selected entry limit older count
      else Some []
  end.

Definition sentBy (agentID : gostring) (e : Event) : bool :=
  bool_decide (Kind e = EventMsg) && bool_decide (AgentID e = agentID).

Definition receivedBy (agentID : gostring) (e : Event) : bool :=
  bool_decide (Kind e = EventMsg) && bool_decide (Target e = agentID).

Definition actedBy (agentID : gostring) (e : Event) : bool :=
  bool_decide (AgentID e = agentID).

(** The loops of the three sections, as [renderAgentDetailFor] runs them
    once it has found the agent. *)
Definition sentEntries (agentID : gostring) (evs : list Event) : option (list gostring) :=
  entriesLoop (sentBy agentID) (λ e, Some (sentEntry e)) 15 (rev evs) 0.

Definition recvEntries (agentID : gostring) (evs : list Event) : option (list gostring) :=
  entriesLoop (receivedBy agentID) (λ e, Some (recvEntry e)) 15 (rev evs) 0.

Definition activityEntries (agentID : gostring) (evs : list Event)
    : option (list gostring) :=
  entriesLoop (actedBy agentID) activityEntry 20 (rev evs) 0.

(** A section of the view: its header, its entries, and "(none)" when it
    has no entry. *)
Definition renderSection (title : gostring) (entries : list gostring) : gostring :=
  detailSectionStyle title ++ [newline] ++ concat entries ++
  (if bool_decide (length entries = 0)%nat
   then dimStyle (str "  (none)") ++ [newline] else []).

(** What is written before "Messages Sent": the header, the frontier
    line, a blank line, the locks, a blank line. *)
Definition renderHead (m : uiModel) (agent : Agent) (agentID : gostring) : gostring :=
  renderHeader agent ++ renderFrontierLine (snap m) agent agentID ++ [newline] ++
  renderLocksHeld agentID (Locks (snap m)) ++ [newline].

(** [renderAgentDetailFor]: for an id that no agent of the snapshot
    carries, the view is the line "Agent ... not found" and nothing else. *)
Definition renderAgentDetailFor (m : uiModel) (agentID : gostring) : option gostring :=
  match lookupAgent (Agents (snap m)) agentID with
  | None => Some (dimStyle (str "  Agent " ++ fmtQuoted agentID ++ str " not found"))
  | Some agent =>
      sent ← sentEntries agentID (Events (snap m));
      received ← recvEntries agentID (Events (snap m));
      activity ← activityEntries agentID (Events (snap m));
      Some (renderHead m agent agentID ++
            renderSection (str "Messages Sent") sent ++ [newline] ++
            renderSection (str "Messages Received") received ++ [newline] ++
            renderSection (str "Recent Activity") activity)
  end.

End Render.

(** A message of alice to bob whose body is 100 bytes long. *)
Definition longMessage : Event :=
  mkEvent 1 (str "alice") 7 EventMsg (str "bob") (replicate 100 "x"%char) 0 0 0.

(** A model whose snapshot holds alice and her long message. *)
Definition detailModel : uiModel :=
  startModel (mkSnapshot [alice] [longMessage] [] [] ∅ 1 0 1 0 0) 0 2 None (str "alice").

End Detail.

(** ** Helpers of the views *)

Module Helpers.
Import Wrap.

(** [eventMatchesAgent]: the event involves the agent as sender or as
    target; the empty filter matches everything. *)
Definition eventMatchesAgent (e : Event) (agent : gostring) : bool :=
  if bool_decide (agent = []) then true
  else bool_decide (AgentID e = agent) || bool_decide (Target e = agent).

(** [filterEvents]. *)
Definition filterEvents (evs : list Event) (kind : EventKind) : list Event :=
  foldl (λ out e, if bool_decide (Kind e = kind) then out ++ [e] else out) [] evs.

(** The agent filter at the head of [renderTimeline]:
    [events := m.snap.Events; if m.filterAgent != "" { ... events = filtered }]. *)
Definition visibleEvents (evs : list Event) (filterAgent : gostring) : list Event :=
  if bool_decide (filterAgent ≠ []) then
    foldl (λ filtered e,
             if eventMatchesAgent e filterAgent then filtered ++ [e] else filtered)
          [] evs
  else evs.

(** The messages [renderMessages] lists: [filterEvents] by kind, then the
    agent filter. *)
Definition visibleMessages (evs : list Event) (filterAgent : gostring) : list Event :=
  visibleEvents (filterEvents evs EventMsg) filterAgent.

(** [agentIndex]: the loop [for i, a := range agents], from index [i]. *)
Fixpoint agentIndexFrom (agents : list gostring) (id : gostring) (i : Z) : Z :=
  match agents with
  | [] => -1
  | a :: rest => if bool_decide (a = id) then i else agentIndexFrom rest id (i + 1)
  end.

Definition agentIndex (agents : list gostring) (id : gostring) : Z :=
  agentIndexFrom agents id 0.

(** [padOrTruncate]; [raw[:width]] panics for a negative [width]. *)
Definition padOrTruncate (raw styled : gostring) (width : Z) : option gostring :=
  let visWidth := Z.of_nat (length raw) in
  if bool_decide (visWidth >= width) then
    if bool_decide (Z.of_nat (length raw) > width) then
      if bool_decide (width < 0) then None else Some (take (Z.to_nat width) raw)
    else Some styled
  else Some (styled ++ replicate (Z.to_nat (width - visWidth)) space).

(** [stripAnsi] walks the runes of its argument ([for _, r := range s]) and
    writes runes: it is modelled on rune sequences, a rune being its code
    point.  The state of the loop is [(b, inEsc)]. *)
Definition escRune : Z := 27.

Definition isLetter (r : Z) : bool :=
  bool_decide (97 ≤ r ∧ r ≤ 122) || bool_decide (65 ≤ r ∧ r ≤ 90).

Definition stripStep (st : list Z * bool) (r : Z) : list Z * bool :=
  if bool_decide (r = escRune) then (st.1, true)
  else if st.2 then (st.1, if isLetter r then false else true)
  else (st.1 ++ [r], st.2).

Definition stripAnsi (runes : list Z) : list Z :=
  (foldl stripStep ([], false) runes).1.

(** The scrolling of [View], on the lines of the content:
    the offset is clamped in a local variable, the lines before it are
    dropped, and the rest is cut to the height of the content area.
    [lines[:contentHeight]] panics for a negative [contentHeight]. *)
Definition scrollWindow (lines : list gostring) (scrollPos contentHeight : Z)
    : option (list gostring) :=
  let len := Z.of_nat (length lines) in
  let scrollPos := if bool_decide (scrollPos >= len) then Z.max 0 (len - 1) else scrollPos in
  let lines :=
    if bool_decide (scrollPos > 0) && bool_decide (scrollPos < len)
    then drop (Z.to_nat scrollPos) lines else lines in
  if bool_decide (Z.of_nat (length lines) > contentHeight) then
    if bool_decide (contentHeight < 0) then None
    else Some (take (Z.to_nat contentHeight) lines)
  else Some lines.

(** [strings.Split(content, "\n")], the scrolling, [strings.Join(lines, "\n")]. *)
Definition scrollContent (content : gostring) (scrollPos contentHeight : Z)
    : option gostring :=
  joinLines <$> scrollWindow (splitOn newline content) scrollPos contentHeight.

End Helpers.

(** ** The JSON dump *)

Module JsonDump.
Import Snapshot Helpers.

Record jsonAgent := mkJsonAgent {
  jaID : gostring;
  jaLamportClock : Z;
  jaEpoch : Z;
  jaRound : Z;
  jaLastSeen : gostring;
  jaSafe : bool
}.

Record jsonLock := mkJsonLock {
  jlPath : gostring;
  jlAgentID : gostring;
  jlLamportTS : Z;
  jlExpiresAt : gostring
}.

Record jsonPoint := mkJsonPoint {
  jpAgentID : gostring;
  jpEpoch : Z;
  jpRound : Z
}.

Record jsonMessage := mkJsonMessage {
  jmFrom : gostring;
  jmTo : gostring;
  jmBody : gostring;
  jmLamportTS : Z
}.

Record jsonStats := mkJsonStats {
  jsActiveAgents : Z;
  jsStaleAgents : Z;
  jsTotalEvents : Z;
  jsActiveLocks : Z
}.

Record jsonOutput := mkJsonOutput {
  joAgents : list jsonAgent;
  joLocks : list jsonLock;
  joFrontier : list jsonPoint;
  joMessages : list jsonMessage;
  joStats : jsonStats
}.

Section Dump.

(** [t.Format(time.RFC3339)] is library code. *)
Variable formatRFC3339 : Z → gostring.

(** The body of the loop over the agents: [safe] stays [false] when the
    agent has no entry in [FrontierStatus]. *)
Definition dumpAgent (sn : DataSnapshot) (ag : Agent) : jsonAgent :=
  let safe :=
    match FrontierStatusOf sn !! agID ag with
    | Some fs => SafeToFinalize fs
    | None => false
    end in
  mkJsonAgent (agID ag) (agClock ag) (agEpoch ag) (agRound ag)
              (formatRFC3339 (agLastSeen ag)) safe.

Definition dumpLock (l : Lock) : jsonLock :=
  mkJsonLock (lkPath l) (lkAgentID l) (lkLamportTS l) (formatRFC3339 (lkExpiresAt l)).

Definition dumpPoint (p : Pointstamp) : jsonPoint :=
  mkJsonPoint (psAgentID p) (psEpoch p) (psRound p).

Definition dumpMessage (e : Event) : jsonMessage :=
  mkJsonMessage (AgentID e) (Target e) (Body e) (LamportTS e).

(** [buildJSONOutput]: each slice is made with the length of its source
    and filled index by index. *)
Definition buildJSONOutput (sn : DataSnapshot) : jsonOutput :=
  mkJsonOutput (map (dumpAgent sn) (Agents sn))
               (map dumpLock (Locks sn))
               (map dumpPoint (Frontier sn))
               (map dumpMessage (filterEvents (Events sn) EventMsg))
               (mkJsonStats (ActiveAgents sn) (StaleAgents sn) (TotalEvents sn)
                            (ActiveLocks sn)).

End Dump.

End JsonDump.

(** ** Change watcher *)

Module Watch.
Import Snapshot.

(** [fsnotify.Event]: a file name and a set of operations, a bit mask. *)
Record FsEvent := mkFsEvent {
  evName : gostring;
  evOp : Z
}.

(** [Watcher], without the handle of the subscription; [onChangeCap] is
    the capacity [onChange] was made with. *)
Record Watcher := mkWatcher {
  dbPath : gostring;
  debounce : Z;
  onChangeCap : nat
}.

(** [100 * time.Millisecond], in nanoseconds. *)
Definition debounceWindow : Z := 100 * 1000000.

(** [NewWatcher]; the two arguments are the errors of
    [fsnotify.NewWatcher] and of [w.Add(dir)], [None] for [nil].  The
    loop it starts is [run], from [startState]. *)
Definition NewWatcher (newErr addErr : option gostring) (path : gostring) : result Watcher :=
  match newErr with
  | Some err => Err err
  | None =>
      match addErr with
      | Some err => Err err
      | None => Ok (mkWatcher path debounceWindow 1)
      end
  end.

(** The loop and what it shares with the timers and the reader.  Timers
    are numbered as [time.AfterFunc] starts them.  [timer] is the variable
    of the loop: the number of the timer it points to, [None] for [nil].
    [pending] lists the timers that were started and have neither fired
    nor been stopped, each with the time at which it fires.  [onChange] is
    the number of signals the channel holds.  Two counters record what the
    functions of the timers did: the sends that went through and the
    sends that were skipped. *)
Record State := mkState {
  timer : option nat;
  pending : list (nat * Z);
  started : nat;
  onChange : nat;
  running : bool;
  sent : nat;
  skipped : nat
}.

(** The state [NewWatcher] starts the loop in. *)
Definition startState : State := mkState None [] 0 0 true 0 0.

(** What the [select] of the loop can take: [done], an event or an error
    with the [ok] of its channel. *)
Inductive Input :=
  | inDone
  | inEvent (ev : FsEvent) (ok : bool)
  | inError (ok : bool).

(** What happens at a time of a trace: the loop takes an input, or the
    reader of [Changes()] takes a signal. *)
Inductive Action :=
  | Loop (i : Input)
  | Receive.

Section Loop.

(** [filepath.Base], and the bits [fsnotify.Write] and [fsnotify.Create]. *)
Variable Base : gostring → gostring.
Variables Write Create : Z.

(** The function of a timer:
    [select { case w.onChange <- struct{}{}: default: }]. *)
Definition signal (w : Watcher) (st : State) : State :=
  if bool_decide (onChange st < onChangeCap w)%nat
  then mkState (timer st) (pending st) (started st) (S (onChange st)) (running st)
               (S (sent st)) (skipped st)
  else mkState (timer st) (pending st) (started st) (onChange st) (running st)
               (sent st) (S (skipped st)).

(** Time passes until [now]: the pending timers whose time has come fire,
    each running its function. *)
Definition elapse (w : Watcher) (now : Z) (st : State) : State :=
  foldl (λ st _, signal w st)
        (mkState (timer st) (filter (λ p, ¬ p.2 ≤ now) (pending st)) (started st)
                 (onChange st) (running st) (sent st) (skipped st))
        (filter (λ p, p.2 ≤ now) (pending st)).

(** [if timer != nil { timer.Stop() }]: the timer the variable points to
    is taken off when it is still pending. *)
Definition stopTimer (st : State) : list (nat * Z) :=
  match timer st with
  | Some id => filter (λ p, p.1 ≠ id) (pending st)
  | None => pending st
  end.

(** The two tests of the loop on an event. *)
Definition otherFile (w : Watcher) (ev : FsEvent) : bool :=
  bool_decide (Base (evName ev) ≠ Base (dbPath w)) &&
  bool_decide (Base (evName ev) ≠ Base (dbPath w) ++ str "-wal") &&
  bool_decide (Base (evName ev) ≠ Base (dbPath w) ++ str "-shm").

Definition otherOp (ev : FsEvent) : bool :=
  bool_decide (Z.land (evOp ev) (Z.lor Write Create) = 0).

(** The loop has returned. *)
Definition stopped (st : State) : State :=
  mkState (timer st) (pending st) (started st) (onChange st) false (sent st) (skipped st).

(** One turn of the loop at time [now].  A write or create of one of the
    three files stops the timer of the variable and starts a new one,
    which fires [w.debounce] after [now]. *)
Definition loopStep (w : Watcher) (now : Z) (st : State) (i : Input) : State :=
  if running st then
    match i with
    | inDone => stopped st
    | inEvent ev ok =>
        if negb ok then stopped st
        else if otherFile w ev then st
        else if otherOp ev then st
        else mkState (Some (started st))
                     (stopTimer st ++ [(started st, now + debounce w)])
                     (S (started st)) (onChange st) (running st) (sent st) (skipped st)
    | inError ok => if negb ok then stopped st else st
    end
  else st.

(** The reader takes a signal when there is one; it waits otherwise, and
    nothing changes. *)
Definition receive (st : State) : State :=
  mkState (timer st) (pending st) (started st) (pred (onChange st)) (running st)
          (sent st) (skipped st).

(** One entry of a trace: time passes until the entry, then it happens. *)
Definition step (w : Watcher) (st : State) (entry : Z * Action) : State :=
  let st := elapse w entry.1 st in
  match entry.2 with
  | Loop i => loopStep w entry.1 st i
  | Receive => receive st
  end.

Definition run (w : Watcher) (st : State) (trace : list (Z * Action)) : State :=
  foldl (step w) st trace.

(** A write-or-create notification to the database file, its "-wal" or
    its "-shm" file. *)
Definition relevant (w : Watcher) (ev : FsEvent) : Prop :=
  (Base (evName ev) = Base (dbPath w) ∨
   Base (evName ev) = Base (dbPath w) ++ str "-wal" ∨
   Base (evName ev) = Base (dbPath w) ++ str "-shm") ∧
  Z.land (evOp ev) (Z.lor Write Create) ≠ 0.

(** The entries of a burst: relevant notifications, and signals taken by
    the reader. *)
Definition burstEntry (w : Watcher) (entry : Z * Action) : Prop :=
  entry.2 = Receive ∨ ∃ ev, entry.2 = Loop (inEvent ev true) ∧ relevant w ev.

End Loop.

(** The times of the notifications of a trace. *)
Definition notifyTimes (trace : list (Z * Action)) : list Z :=
  omap (λ entry : Z * Action,
          match entry.2 with Loop (inEvent _ _) => Some entry.1 | _ => None end) trace.

(** The timer in force after a notification at time [armed]: the variable
    points to it and it is the only one pending; no timer is pending
    before the first notification. *)
Definition inForce (w : Watcher) (armed : option Z) (st : State) : Prop :=
  match armed with
  | Some t => ∃ id, timer st = Some id ∧ pending st = [(id, t + debounce w)]
  | None => pending st = []
  end.

(** The state after an earlier burst whose signal the reader has not
    taken yet: the first timer has fired and the channel holds its signal. *)
Definition signalled : State := mkState (Some 0%nat) [] 1 1 true 1 0.

(** Three writes, 30 ms apart, to the database and its "-wal" file, and
    the reader taking a signal in between. *)
Definition threeWrites : list (Z * Action) :=
  [ (0, Loop (inEvent (mkFsEvent (str "clockmail.db-wal") 2) true));
    (30000000, Loop (inEvent (mkFsEvent (str "clockmail.db") 2) true));
    (45000000, Receive);
    (60000000, Loop (inEvent (mkFsEvent (str "clockmail.db-wal") 3) true)) ].

End Watch.

(** ** Readings of the state used to state properties *)

Module Readings.
Import Snapshot Nav Diagram.

(** The arrow a message event registers in its row. *)
Definition arrowOf (e : Event) : diagramMsg :=
  mkMsg (AgentID e) (Target e) (Body e).

(** The events that register an arrow at a clock value: the messages with
    a target. *)
Definition arrowsAt (ts : Z) (evs : list Event) : list Event :=
  filter (λ e, Kind e = EventMsg ∧ Target e ≠ [] ∧ LamportTS e = ts) evs.

(** One key press, as [Update] handles it. *)
Definition press (key : gostring) (m : uiModel) : uiModel :=
  (Update 0 m (KeyMsg key)).1.

(** The anchor [Build] passes to the event query. *)
Definition anchorOf (maxID : Z) : Z :=
  if bool_decide (wrap64 (maxID - eventLimit) < 0) then 0
  else wrap64 (maxID - eventLimit).

(** The invariant of the navigation state: the scroll offset is not
    negative, an agent filter is set only in Messages and Timeline, and
    the detail focus is set only in Agent-Detail. *)
Definition navInv (m : uiModel) : Prop :=
  0 ≤ scrollPos m ∧
  (filterAgent m ≠ [] → activeView m = viewMessages ∨ activeView m = viewTimeline) ∧
  (activeView m ≠ viewAgentDetail → detailAgentID m = []).

(** A model in Messages with two agents and no filter. *)
Definition inMessages : uiModel :=
  press (str "m") (startModel (snapshotOf [alice; bob]) 0 2 None []).

End Readings.

(* ================================================================== *)
(** * Properties *)
(* ================================================================== *)

(** ** Timeline analyzer *)

Module TimelineProps.
Import Timeline.

(** The cases of the test-suite. *)
Example groupByLamport_sample :
  map (λ g, (lamportTS g, length (events g))) (groupByLamport sampleEvents)
  = [(1, 2%nat); (2, 1%nat); (3, 3%nat)].
Proof. reflexivity. Qed.

Example groupByLamport_nil : groupByLamport [] = [].
Proof. reflexivity. Qed.

Example isConcurrentGroup_sample :
  map isConcurrentGroup (groupByLamport sampleEvents) = [true; false; true].
Proof. reflexivity. Qed.

Lemma flatten_snoc gs g : flatten (gs ++ [g]) = flatten gs ++ events g.
Proof.
  unfold flatten. rewrite map_app, concat_app. simpl. by rewrite app_nil_r.
Qed.

(** The loop never loses or reorders an event. *)
Lemma foldl_groupStep_flatten evs gs cur :
  flatten ((foldl groupStep (gs, cur) evs).1 ++ [(foldl groupStep (gs, cur) evs).2])
  = flatten (gs ++ [cur]) ++ evs.
Proof.
  revert gs cur. induction evs as [|e evs IH]; intros gs cur; simpl.
  - by rewrite app_nil_r.
  - unfold groupStep at 2 4. simpl. case_bool_decide; simpl.
    + rewrite IH. rewrite !flatten_snoc. simpl. by rewrite <- !app_assoc.
    + rewrite IH. rewrite !flatten_snoc. simpl. by rewrite <- !app_assoc.
Qed.

Lemma groupByLamport_unfold e0 evs :
  groupByLamport (e0 :: evs) =
    (foldl groupStep ([], mkGroup (LamportTS e0) []) (e0 :: evs)).1 ++
    [(foldl groupStep ([], mkGroup (LamportTS e0) []) (e0 :: evs)).2].
Proof.
  unfold groupByLamport.
  by destruct (foldl groupStep ([], mkGroup (LamportTS e0) []) (e0 :: evs)).
Qed.

Lemma groupByLamport_flatten evs : flatten (groupByLamport evs) = evs.
Proof.
  destruct evs as [|e0 evs]; [done|].
  rewrite groupByLamport_unfold, foldl_groupStep_flatten. done.
Qed.

Lemma groupStep_first e0 evs :
  foldl groupStep ([], mkGroup (LamportTS e0) []) (e0 :: evs)
  = foldl groupStep ([], mkGroup (LamportTS e0) [e0]) evs.
Proof.
  simpl. unfold groupStep at 2. simpl.
  rewrite bool_decide_false by (intros H; by apply H). done.
Qed.

Lemma neighboursDiffer_snoc gs g1 g2 :
  neighboursDiffer (gs ++ [g1]) → lamportTS g1 ≠ lamportTS g2 →
  neighboursDiffer ((gs ++ [g1]) ++ [g2]).
Proof.
  induction gs as [|g gs IH]; simpl; intros Hn Hne; [done|].
  destruct gs as [|g' gs]; simpl in *.
  - destruct Hn as [Hn _]. done.
  - destruct Hn as [Hn1 Hn2]. split; [done|]. by apply IH.
Qed.

Lemma neighboursDiffer_last gs g ts es :
  neighboursDiffer (gs ++ [g]) → lamportTS g = ts →
  neighboursDiffer (gs ++ [mkGroup ts es]).
Proof.
  induction gs as [|g0 gs IH]; simpl; intros Hn Hts; [done|].
  destruct gs as [|g' gs]; simpl in *.
  - destruct Hn as [Hn _]. split; [congruence|done].
  - destruct Hn as [Hn1 Hn2]. split; [done|]. by apply IH.
Qed.

Lemma groupStep_runsInv st e : runsInv st → runsInv (groupStep st e).
Proof.
  destruct st as [gs cur]. intros (Hgs & [Hne Hcur] & Hnb).
  unfold groupStep; simpl in *. case_bool_decide as Hts; simpl.
  - split; [|split]; simpl.
    + apply Forall_app. split; [done|]. by repeat constructor.
    + split; [done|]. by repeat constructor.
    + apply neighboursDiffer_snoc; [done|]. simpl. congruence.
  - assert (LamportTS e = lamportTS cur) as Heq.
    { destruct (decide (LamportTS e = lamportTS cur)); [done|]. by destruct Hts. }
    split; [|split]; simpl.
    + done.
    + split; [by destruct (events cur)|].
      apply Forall_app. split; [done|]. by repeat constructor.
    + by eapply neighboursDiffer_last.
Qed.

Lemma foldl_groupStep_runsInv evs st : runsInv st → runsInv (foldl groupStep st evs).
Proof.
  revert st. induction evs as [|e evs IH]; intros st Hst; simpl; [done|].
  apply IH. by apply groupStep_runsInv.
Qed.

Lemma groupByLamport_runs evs :
  Forall isRun (groupByLamport evs) ∧ neighboursDiffer (groupByLamport evs).
Proof.
  destruct evs as [|e0 evs]; [by split|].
  rewrite groupByLamport_unfold, groupStep_first.
  destruct (foldl_groupStep_runsInv evs ([], mkGroup (LamportTS e0) [e0]))
    as (H1 & H2 & H3).
  { split; [|split]; simpl; [done| |done]. split; [done|]. by repeat constructor. }
  split; [|done]. apply Forall_app. split; [done|]. by apply Forall_singleton.
Qed.

(** On a list sorted by clock, runs whose neighbours differ have strictly
    increasing clock values. *)
Lemma runs_strictly_increasing gs :
  StronglySorted Z.le (map LamportTS (flatten gs)) →
  Forall isRun gs → neighboursDiffer gs →
  Sorted Z.lt (map lamportTS gs).
Proof.
  induction gs as [|g1 gs IH]; intros Hs Hr Hn; simpl; [constructor|].
  unfold flatten in Hs. simpl in Hs. rewrite map_app in Hs.
  apply StronglySorted_app in Hs as (Hcross & _ & Hrest).
  apply Forall_cons in Hr as [[Hne1 Hall1] Hr].
  constructor.
  - apply IH; [done|done|]. destruct gs; [done|]. by destruct Hn.
  - destruct gs as [|g2 gs]; simpl; constructor.
    destruct Hn as [Hn _].
    apply Forall_cons in Hr as [[Hne2 Hall2] _].
    destruct (events g1) as [|e1 es1] eqn:E1; [done|].
    destruct (events g2) as [|e2 es2] eqn:E2; [done|].
    apply Forall_cons in Hall1 as [Ht1 _]. apply Forall_cons in Hall2 as [Ht2 _].
    assert (LamportTS e1 ≤ LamportTS e2) as Hle.
    { apply Hcross.
      - simpl. left.
      - simpl. rewrite E2. simpl. left. }
    lia.
Qed.

(** C2.  For an event list sorted ascending by logical clock,
    [groupByLamport] cuts it into maximal runs of one clock value each:
    flattening the groups in order gives back the list, every group is a
    non-empty run carrying its own clock value, neighbouring groups differ
    in clock value, and the group clocks are strictly increasing. *)
Theorem groupByLamport_partition (evs : list Event) :
  Sorted Z.le (map LamportTS evs) →
  flatten (groupByLamport evs) = evs ∧
  Forall isRun (groupByLamport evs) ∧
  neighboursDiffer (groupByLamport evs) ∧
  StronglySorted Z.lt (map lamportTS (groupByLamport evs)).
Proof.
  intros Hs.
  destruct (groupByLamport_runs evs) as [Hr Hn].
  split; [apply groupByLamport_flatten|]. split; [done|]. split; [done|].
  apply Sorted_StronglySorted; [intros x y z; lia|].
  apply runs_strictly_increasing; [|done|done].
  rewrite groupByLamport_flatten.
  apply Sorted_StronglySorted; [intros x y z; lia|done].
Qed.

Lemma groupByLamport_partition_witness :
  flatten (groupByLamport sampleEvents) = sampleEvents ∧
  Forall isRun (groupByLamport sampleEvents) ∧
  neighboursDiffer (groupByLamport sampleEvents) ∧
  StronglySorted Z.lt (map lamportTS (groupByLamport sampleEvents)).
Proof.
  apply (groupByLamport_partition sampleEvents).
  unfold sampleEvents; simpl. repeat constructor; lia.
Defined.

Lemma differsFrom_true first rest :
  differsFrom first rest = true ↔ ∃ e, e ∈ rest ∧ AgentID e ≠ first.
Proof.
  induction rest as [|e rest IH]; simpl.
  - split; [done|]. intros (e & He & _). by apply elem_of_nil in He.
  - case_bool_decide as Hd.
    + split; [|done]. intros _. exists e. split; [left|done].
    + rewrite IH. split.
      * intros (e' & He' & Hne). exists e'. split; [by right|done].
      * intros (e' & He' & Hne). apply elem_of_cons in He' as [->|He'].
        -- destruct (decide (AgentID e = first)) as [Heq|Hneq]; [done|by destruct Hd].
        -- by exists e'.
Qed.

(** C3.  A timeline group is flagged concurrent exactly when it has at
    least two events and two of them come from different agents; a group of
    at most one event, and a group whose events all share one agent id, are
    not flagged. *)
Theorem isConcurrentGroup_iff (g : timelineGroup) :
  (isConcurrentGroup g = true ↔
     (2 ≤ length (events g))%nat ∧
     ∃ e1 e2, e1 ∈ events g ∧ e2 ∈ events g ∧ AgentID e1 ≠ AgentID e2) ∧
  ((length (events g) ≤ 1)%nat → isConcurrentGroup g = false) ∧
  ((∀ e1 e2, e1 ∈ events g → e2 ∈ events g → AgentID e1 = AgentID e2) →
     isConcurrentGroup g = false).
Proof.
  assert (isConcurrentGroup g = true ↔
     (2 ≤ length (events g))%nat ∧
     ∃ e1 e2, e1 ∈ events g ∧ e2 ∈ events g ∧ AgentID e1 ≠ AgentID e2) as Hiff.
  { unfold isConcurrentGroup. destruct (events g) as [|e0 rest] eqn:E.
    - split; [done|]. simpl. intros [? _]. lia.
    - case_bool_decide as Hlen.
      + split; [done|]. intros [? _]. lia.
      + rewrite differsFrom_true. split.
        * intros (e & He & Hne). split; [lia|].
          exists e, e0. split; [by right|]. split; [left|done].
        * intros (_ & e1 & e2 & H1 & H2 & Hne).
          destruct (decide (AgentID e1 = AgentID e0)) as [Heq1|Hne1].
          -- exists e2. split; [|congruence].
             apply elem_of_cons in H2 as [->|H2]; [congruence|done].
          -- exists e1. split; [|done].
             apply elem_of_cons in H1 as [->|H1]; [done|done]. }
  split; [done|]. split.
  - intros Hlen. apply not_true_iff_false. rewrite Hiff. intros [? _]. lia.
  - intros Hsame. apply not_true_iff_false. rewrite Hiff.
    intros (_ & e1 & e2 & H1 & H2 & Hne). apply Hne. by apply Hsame.
Qed.

Lemma isConcurrentGroup_iff_witness :
  isConcurrentGroup (mkGroup 2 [mkEvent 3 (str "a") 2 EventLockReq [] [] 0 0 0]) = false ∧
  isConcurrentGroup (mkGroup 1 (take 2 sampleEvents)) = true.
Proof.
  split.
  - apply (proj1 (proj2 (isConcurrentGroup_iff
             (mkGroup 2 [mkEvent 3 (str "a") 2 EventLockReq [] [] 0 0 0])))).
    simpl. lia.
  - reflexivity.
Defined.

(** What the causal set holds after the loop: an id reads [true] exactly
    when a message event carries it. *)
Lemma foldl_causalStep_lookup evs causal id :
  default false (foldl causalStep causal evs !! id) = true ↔
  default false (causal !! id) = true ∨
  ∃ e, e ∈ evs ∧ ID e = id ∧ Kind e = EventMsg.
Proof.
  revert causal. induction evs as [|e evs IH]; intros causal; simpl.
  - split; [by left|]. intros [?|(e & He & _)]; [done|]. by apply elem_of_nil in He.
  - rewrite IH. unfold causalStep. case_bool_decide as Hk.
    + destruct (decide (ID e = id)) as [<-|Hne].
      * rewrite lookup_insert_eq. simpl. split; intros _.
        -- right. exists e. split; [left|done].
        -- by left.
      * rewrite lookup_insert_ne by done. split.
        -- intros [?|(e' & He' & ? & ?)]; [by left|]. right. exists e'.
           split; [by right|done].
        -- intros [?|(e' & He' & Hid & Hm)]; [by left|].
           apply elem_of_cons in He' as [->|He']; [done|]. right. by exists e'.
    + split.
      * intros [?|(e' & He' & ? & ?)]; [by left|]. right. exists e'.
        split; [by right|done].
      * intros [?|(e' & He' & Hid & Hm)]; [by left|].
        apply elem_of_cons in He' as [->|He']; [done|]. right. by exists e'.
Qed.

(** The set is keyed by event id: an id is marked exactly when a message
    event of the list carries it. *)
Lemma buildCausalSet_lookup evs e :
  causalMarked (buildCausalSet evs) e = true ↔
  ∃ e', e' ∈ evs ∧ ID e' = ID e ∧ Kind e' = EventMsg.
Proof.
  unfold causalMarked, buildCausalSet.
  rewrite foldl_causalStep_lookup, lookup_empty. simpl.
  split; [intros [?|?]; done | by right].
Qed.

(** C4.  For every event list whose ids are pairwise distinct, as the ids
    assigned by the store are, [buildCausalSet] marks an event of the list
    as a causal witness if and only if its kind is message: no
    lock-request, lock-release, heartbeat or other-kind event is marked. *)
Theorem buildCausalSet_messages (evs : list Event) :
  NoDup (map ID evs) →
  (∀ e, e ∈ evs → (causalMarked (buildCausalSet evs) e = true ↔ Kind e = EventMsg)) ∧
  (∀ e, e ∈ evs → Kind e ≠ EventMsg → causalMarked (buildCausalSet evs) e = false).
Proof.
  intros Hnd.
  assert (∀ e, e ∈ evs →
            (causalMarked (buildCausalSet evs) e = true ↔ Kind e = EventMsg)) as Hiff.
  { intros e He. rewrite buildCausalSet_lookup. split.
    - intros (e' & He' & Hsame & Hm).
      assert (e' = e) as ->; [|done].
      apply list_elem_of_lookup in He as [i Hi].
      apply list_elem_of_lookup in He' as [j Hj].
      assert (i = j) as ->.
      { eapply NoDup_lookup; [exact Hnd| |].
        - rewrite list_lookup_fmap, Hi. reflexivity.
        - rewrite list_lookup_fmap, Hj. simpl. by rewrite Hsame. }
      congruence.
    - intros Hm. by exists e. }
  split; [done|]. intros e He Hk.
  destruct (causalMarked (buildCausalSet evs) e) eqn:Hm; [|done].
  exfalso. apply Hk. by apply Hiff.
Qed.

Lemma buildCausalSet_messages_witness :
  causalMarked (buildCausalSet sampleEvents)
    (mkEvent 1 (str "a") 1 EventMsg (str "b") (str "hi") 0 0 0) = true ∧
  causalMarked (buildCausalSet sampleEvents)
    (mkEvent 2 (str "b") 1 EventProgress [] [] 0 0 0) = false.
Proof.
  assert (NoDup (map ID sampleEvents)) as Hnd.
  { unfold sampleEvents; simpl.
    apply NoDup_ListNoDup. repeat constructor; simpl; intuition lia. }
  destruct (buildCausalSet_messages sampleEvents Hnd) as [Hiff Hnot].
  split.
  - apply (Hiff (mkEvent 1 (str "a") 1 EventMsg (str "b") (str "hi") 0 0 0));
      [unfold sampleEvents; left|reflexivity].
  - apply (Hnot (mkEvent 2 (str "b") 1 EventProgress [] [] 0 0 0));
      [unfold sampleEvents; right; left|discriminate].
Defined.

End TimelineProps.

(** ** Space-time diagram layout engine *)

Module DiagramProps.
Import Diagram.

(** The cases of the test-suite. *)
Example sortInt64s_mixed : sortInt64s [5; 1; 3; 2; 4] = [1; 2; 3; 4; 5].
Proof. reflexivity. Qed.

Example sortInt64s_duplicates : sortInt64s [3; 1; 3; 2; 1] = [1; 1; 2; 3; 3].
Proof. reflexivity. Qed.

Example buildDiagramData_nil : buildDiagramData [] [] = Some ([], []).
Proof. reflexivity. Qed.

(** *** [sortInt64s] is an insertion sort *)

Lemma lookup_sink_hi (l0 : list Z) b x l2 :
  ((l0 ++ [b]) ++ x :: l2) !! S (length l0) = Some x.
Proof. induction l0 as [|y l0 IH]; simpl; [done|exact IH]. Qed.

Lemma lookup_sink_lo (l0 : list Z) b x l2 :
  ((l0 ++ [b]) ++ x :: l2) !! length l0 = Some b.
Proof. induction l0 as [|y l0 IH]; simpl; [done|exact IH]. Qed.

Lemma swap_neighbours (l0 : list Z) b x l2 :
  <[length l0 := x]> (<[S (length l0) := b]> ((l0 ++ [b]) ++ x :: l2))
  = l0 ++ x :: b :: l2.
Proof. induction l0 as [|y l0 IH]; simpl; [done|]. f_equal. exact IH. Qed.

Lemma sinkDown_S j (s : list Z) :
  sinkDown (S j) s =
    match s !! S j, s !! j with
    | Some a, Some b =>
        if bool_decide (a < b) then sinkDown j (<[j := a]> (<[S j := b]> s)) else s
    | _, _ => s
    end.
Proof. reflexivity. Qed.

(** The inner loop run at the end of a prefix [l1]: the element after the
    prefix sinks into it, the rest of the slice is untouched, and a sorted
    prefix stays sorted. *)
Lemma sinkDown_prefix (l1 : list Z) x l2 :
  ∃ l1', sinkDown (length l1) (l1 ++ x :: l2) = l1' ++ l2 ∧
         l1' ≡ₚ l1 ++ [x] ∧
         (StronglySorted Z.le l1 → StronglySorted Z.le l1').
Proof.
  revert l2. induction l1 as [|b l0 IH] using rev_ind; intros l2.
  - exists [x]. simpl. split; [done|]. split; [done|]. intros _. by repeat constructor.
  - replace (length (l0 ++ [b])) with (S (length l0))
      by (rewrite length_app; simpl; lia).
    rewrite sinkDown_S, lookup_sink_hi, lookup_sink_lo.
    case_bool_decide as Hlt.
    + rewrite swap_neighbours.
      destruct (IH (b :: l2)) as (l0' & Heq & Hperm & Hsorted).
      rewrite Heq.
      exists (l0' ++ [b]). split; [by rewrite <- !app_assoc|].
      split.
      { rewrite Hperm. rewrite <- !app_assoc. simpl.
        apply Permutation_app_head. apply Permutation_swap. }
      intros Hs. apply StronglySorted_app in Hs as (Hcross & Hs0 & _).
      apply StronglySorted_app. split; [|split].
      * intros x1 x2 Hx1 Hx2. apply list_elem_of_singleton in Hx2 as ->.
        rewrite Hperm in Hx1. apply elem_of_app in Hx1 as [Hx1|Hx1].
        -- apply Hcross; [done|]. by apply list_elem_of_singleton.
        -- apply list_elem_of_singleton in Hx1 as ->. lia.
      * by apply Hsorted.
      * by repeat constructor.
    + exists ((l0 ++ [b]) ++ [x]). split; [by rewrite <- !app_assoc|].
      split; [done|].
      intros Hs. apply StronglySorted_app. split; [|split].
      * intros x1 x2 Hx1 Hx2. apply list_elem_of_singleton in Hx2 as ->.
        apply StronglySorted_app in Hs as (Hcross & _ & _).
        apply elem_of_app in Hx1 as [Hx1|Hx1].
        -- assert (x1 ≤ b); [|lia]. apply Hcross; [done|].
           by apply list_elem_of_singleton.
        -- apply list_elem_of_singleton in Hx1 as ->. lia.
      * done.
      * by repeat constructor.
Qed.

(** The outer loop, started at index [i] with the first [i] elements in
    order, leaves the whole slice in order and keeps its elements. *)
Lemma foldl_sinkDown_sorted n : ∀ i (s : list Z),
  (i + n = length s)%nat →
  StronglySorted Z.le (take i s) →
  StronglySorted Z.le (foldl (λ s i, sinkDown i s) s (seq i n)) ∧
  foldl (λ s i, sinkDown i s) s (seq i n) ≡ₚ s.
Proof.
  induction n as [|n IH]; intros i s Hlen Hs; simpl.
  - rewrite take_ge in Hs by lia. done.
  - destruct (lookup_lt_is_Some_2 s i ltac:(lia)) as [x Hx].
    pose proof (take_drop_middle s i x Hx) as Hsplit.
    assert (length (take i s) = i) as Hli by (rewrite length_take; lia).
    destruct (sinkDown_prefix (take i s) x (drop (S i) s)) as (l1' & Heq & Hperm & Hsorted).
    rewrite Hli, Hsplit in Heq.
    assert (length l1' = S i) as Hl1'.
    { rewrite Hperm, length_app, Hli. simpl. lia. }
    assert (sinkDown i s ≡ₚ s) as Hps.
    { rewrite Heq. rewrite <- Hsplit at 2. rewrite Hperm, <- app_assoc. done. }
    destruct (IH (S i) (sinkDown i s)) as [H1 H2].
    + rewrite Hps. lia.
    + rewrite Heq. rewrite take_app_length' by done. by apply Hsorted.
    + split; [done|]. by rewrite H2.
Qed.

Lemma sortInt64s_sorted (s : list Z) :
  StronglySorted Z.le (sortInt64s s) ∧ sortInt64s s ≡ₚ s.
Proof.
  unfold sortInt64s. destruct s as [|x s].
  - simpl. split; [constructor|done].
  - apply foldl_sinkDown_sorted.
    + simpl. lia.
    + simpl. rewrite take_0. by repeat constructor.
Qed.

Lemma sorted_NoDup_strict (l : list Z) :
  StronglySorted Z.le l → NoDup l → StronglySorted Z.lt l.
Proof.
  induction 1 as [|x l Hs IH Hall]; intros Hnd; [constructor|].
  apply NoDup_cons in Hnd as [Hx Hnd].
  constructor; [by apply IH|].
  apply Forall_forall. intros y Hy.
  rewrite Forall_forall in Hall. specialize (Hall y Hy).
  assert (x ≠ y) by (intros ->; done). lia.
Qed.

(** *** The event loop *)

Lemma lastAt_snoc ts ag evs e :
  lastAt ts ag (evs ++ [e]) =
    if decide (LamportTS e = ts ∧ AgentID e = ag) then Some e else lastAt ts ag evs.
Proof.
  unfold lastAt. rewrite filter_app, filter_cons, filter_nil.
  case_decide.
  - by rewrite last_snoc.
  - by rewrite app_nil_r.
Qed.

Lemma trackMessage_same row e :
  lamportTS (trackMessage row e) = lamportTS row ∧
  cells (trackMessage row e) = cells row.
Proof. unfold trackMessage. by destruct (_ && _). Qed.

Lemma placedInv_nil : placedInv [] (∅, []).
Proof.
  split; [constructor|]. split; [done|]. split.
  - intros ts. simpl. rewrite lookup_empty. split; [by intros [? ?]|].
    intros H. by apply elem_of_nil in H.
  - intros ts row. simpl. by rewrite lookup_empty.
Qed.

Lemma placeEvent_inv evs st e :
  placedInv evs st → placedInv (evs ++ [e]) (placeEvent st e).
Proof.
  destruct st as [rowMap tss]. intros (Hnd & Hts & Hdom & Hrows). simpl in *.
  unfold placeEvent. simpl.
  assert (∀ ts row0, (∀ ag, cells row0 !! ag = cellOf <$> lastAt ts ag evs) →
            lamportTS row0 = ts → ts = LamportTS e →
            lamportTS (trackMessage (setCell row0 e) e) = ts ∧
            ∀ ag, cells (trackMessage (setCell row0 e) e) !! ag
                  = cellOf <$> lastAt ts ag (evs ++ [e])) as Hnew.
  { intros ts row0 Hcells Hl ->.
    destruct (trackMessage_same (setCell row0 e) e) as [-> ->]. simpl.
    split; [done|]. intros ag. rewrite lastAt_snoc.
    destruct (decide (AgentID e = ag)) as [<-|Hag].
    - rewrite lookup_insert_eq. rewrite decide_True by done. done.
    - rewrite lookup_insert_ne by done. rewrite decide_False by (intros [_ ?]; done).
      apply Hcells. }
  assert (∀ ts row0, ts ≠ LamportTS e →
            (∀ ag, cells row0 !! ag = cellOf <$> lastAt ts ag evs) →
            ∀ ag, cells row0 !! ag = cellOf <$> lastAt ts ag (evs ++ [e])) as Hold.
  { intros ts row0 Hne Hcells ag. rewrite lastAt_snoc.
    rewrite decide_False by (intros [? _]; done). apply Hcells. }
  destruct (rowMap !! LamportTS e) as [row|] eqn:Hrow; unfold placedInv; simpl.
  - assert (LamportTS e ∈ tss) as Hin by (apply Hdom; eauto).
    split; [done|]. split; [|split].
    + intros ts. rewrite map_app, elem_of_app, <- Hts. simpl.
      rewrite list_elem_of_singleton. split; [by left|]. intros [?| ->]; done.
    + intros ts. rewrite <- Hdom.
      destruct (decide (LamportTS e = ts)) as [<-|Hne].
      * rewrite lookup_insert_eq, Hrow. split; eauto.
      * by rewrite lookup_insert_ne.
    + intros ts row'. destruct (decide (LamportTS e = ts)) as [<-|Hne].
      * rewrite lookup_insert_eq. intros [= <-].
        destruct (Hrows _ _ Hrow) as [Hl Hc]. by apply Hnew.
      * rewrite lookup_insert_ne by done. intros Hr.
        destruct (Hrows _ _ Hr) as [Hl Hc]. split; [done|]. by apply Hold.
  - assert (LamportTS e ∉ tss) as Hnin.
    { intros Hin. apply Hdom in Hin. rewrite Hrow in Hin. by destruct Hin. }
    split; [|split; [|split]].
    + apply NoDup_app. split; [done|]. split; [|apply NoDup_singleton].
      intros x Hx Hx'. apply list_elem_of_singleton in Hx' as ->. done.
    + intros ts. rewrite map_app, !elem_of_app, <- Hts. done.
    + intros ts. rewrite elem_of_app, <- Hdom, list_elem_of_singleton.
      destruct (decide (LamportTS e = ts)) as [<-|Hne].
      * rewrite lookup_insert_eq. split; eauto.
      * rewrite !lookup_insert_ne by done. split; [by left|].
        intros [?| ->]; done.
    + intros ts row'. destruct (decide (LamportTS e = ts)) as [<-|Hne].
      * rewrite lookup_insert_eq. intros [= <-].
        apply Hnew; [|done|done]. intros ag. simpl. rewrite lookup_empty.
        destruct (lastAt (LamportTS e) ag evs) as [e'|] eqn:Hl; [|done].
        exfalso. unfold lastAt in Hl. apply last_Some_elem_of in Hl.
        apply list_elem_of_filter in Hl as [[Hl _] Hin].
        apply Hnin, Hts. rewrite <- Hl. apply list_elem_of_fmap. eauto.
      * rewrite !lookup_insert_ne by done. intros Hr.
        destruct (Hrows _ _ Hr) as [Hl Hc]. split; [done|]. by apply Hold.
Qed.

Lemma foldl_placeEvent_inv evs : placedInv evs (foldl placeEvent (∅, []) evs).
Proof.
  induction evs as [|e evs IH] using rev_ind; [apply placedInv_nil|].
  rewrite foldl_app. simpl. by apply placeEvent_inv.
Qed.

(** *** The rows *)

(** [buildDiagramData] never dereferences a missing row: it returns, and
    its rows are the rows of the map, taken in the order of the sorted
    timestamps. *)
Lemma buildDiagramData_rows agents evs :
  ∃ rows, buildDiagramData agents evs = Some (map agID agents, rows) ∧
    map lamportTS rows = sortInt64s (foldl placeEvent (∅, []) evs).2 ∧
    Forall2 (λ ts row, (foldl placeEvent (∅, []) evs).1 !! ts = Some row)
            (sortInt64s (foldl placeEvent (∅, []) evs).2) rows.
Proof.
  unfold buildDiagramData.
  destruct (foldl_placeEvent_inv evs) as (Hnd & Hts & Hdom & Hrows).
  destruct (foldl placeEvent (∅, []) evs) as [rowMap tss]. simpl in *.
  destruct (sortInt64s_sorted tss) as [_ Hperm].
  destruct (mapM_is_Some_2 (λ ts, rowMap !! ts) (sortInt64s tss)) as [rows Hrs].
  { apply Forall_forall. intros ts Hin. simpl. apply Hdom. by rewrite <- Hperm. }
  exists rows. rewrite Hrs. simpl. split; [done|]. split.
  - apply (mapM_fmap_Some_inv _ lamportTS _ _ Hrs).
    intros ts row Hr. by destruct (Hrows _ _ Hr).
  - by apply mapM_Some_1.
Qed.

Lemma strictly_sorted_unique (l1 l2 : list Z) :
  StronglySorted Z.lt l1 → StronglySorted Z.lt l2 →
  (∀ x, x ∈ l1 ↔ x ∈ l2) → l1 = l2.
Proof.
  intros H1 H2 Hel.
  assert (∀ l, StronglySorted Z.lt l → NoDup l) as Hnd.
  { induction 1 as [|x l Hs IH Hall]; [constructor|].
    apply NoDup_cons. split; [|done].
    intros Hx. rewrite Forall_forall in Hall. specialize (Hall x Hx). lia. }
  eapply (StronglySorted_unique_strong Z.lt); [|done|done|].
  - intros x1 x2 _ _ ? ?. lia.
  - apply NoDup_Permutation; auto.
Qed.

(** C7.  [buildDiagramData] returns one row per distinct logical-clock
    value of the event list, the clock values of the rows strictly
    increasing; the order in which the events are listed does not matter:
    a reordered event list gives the same sequence of row clocks. *)
Theorem buildDiagramData_rows_ascending (agents : list Agent) (evs : list Event) :
  ∃ rows, buildDiagramData agents evs = Some (map agID agents, rows) ∧
    StronglySorted Z.lt (map lamportTS rows) ∧
    (∀ ts, ts ∈ map lamportTS rows ↔ ts ∈ map LamportTS evs) ∧
    (∀ evs', evs' ≡ₚ evs →
       ∃ rows', buildDiagramData agents evs' = Some (map agID agents, rows') ∧
                map lamportTS rows' = map lamportTS rows).
Proof.
  assert (∀ evs0, ∃ rows, buildDiagramData agents evs0 = Some (map agID agents, rows) ∧
    StronglySorted Z.lt (map lamportTS rows) ∧
    (∀ ts, ts ∈ map lamportTS rows ↔ ts ∈ map LamportTS evs0)) as Hmain.
  { intros evs0.
    destruct (buildDiagramData_rows agents evs0) as (rows & Hb & Hmap & _).
    destruct (foldl_placeEvent_inv evs0) as (Hnd & Hts & _ & _).
    destruct (sortInt64s_sorted (foldl placeEvent (∅, []) evs0).2) as [Hs Hperm].
    exists rows. split; [done|]. rewrite Hmap. split.
    - apply sorted_NoDup_strict; [done|]. by rewrite Hperm.
    - intros ts. by rewrite Hperm. }
  destruct (Hmain evs) as (rows & Hb & Hs & Hel).
  exists rows. split; [done|]. split; [done|]. split; [done|].
  intros evs' Hp. destruct (Hmain evs') as (rows' & Hb' & Hs' & Hel').
  exists rows'. split; [done|].
  apply strictly_sorted_unique; [done|done|].
  intros ts. rewrite Hel, Hel'. by rewrite Hp.
Qed.

Lemma buildDiagramData_rows_ascending_witness :
  ∃ rows', buildDiagramData [] (rev shuffledEvents) = Some ([], rows') ∧
           map lamportTS rows' = [1; 2; 5].
Proof.
  destruct (buildDiagramData_rows_ascending [] shuffledEvents)
    as (rows & Hb & _ & _ & Hperm).
  destruct (Hperm (rev shuffledEvents)) as (rows' & Hb' & Heq).
  { symmetry. apply Permutation_rev. }
  exists rows'. split; [exact Hb'|]. rewrite Heq.
  vm_compute in Hb. injection Hb as <-. reflexivity.
Defined.

(** *** The cells *)

(** C8, as stated, fails: a row has one cell per agent, so of two events
    of one agent at one clock value only the later one keeps its marker. *)
Lemma buildDiagramData_cell_overwritten :
  ¬ (∀ (agents : list Agent) (evs : list Event) (e : Event), e ∈ evs →
       ∃ rows row, buildDiagramData agents evs = Some (map agID agents, rows) ∧
                   row ∈ rows ∧ lamportTS row = LamportTS e ∧
                   cells row !! AgentID e = Some (cellOf e)).
Proof.
  intros H.
  destruct (H [] overwrittenEvents
              (mkEvent 1 (str "alice") 1 EventMsg (str "bob") (str "hello") 0 0 0))
    as (rows & row & Hb & Hin & _ & Hcell).
  { unfold overwrittenEvents. left. }
  vm_compute in Hb. injection Hb as <-.
  apply list_elem_of_singleton in Hin. subst row.
  vm_compute in Hcell. discriminate Hcell.
Qed.

Lemma lastAt_is_Some evs e :
  e ∈ evs → is_Some (lastAt (LamportTS e) (AgentID e) evs).
Proof.
  intros Hin. unfold lastAt.
  destruct (last _) as [e'|] eqn:Hl; [eauto|].
  apply last_None in Hl.
  assert (e ∈ filter (λ e0, LamportTS e0 = LamportTS e ∧ AgentID e0 = AgentID e) evs) as Hf.
  { apply list_elem_of_filter. done. }
  rewrite Hl in Hf. by apply elem_of_nil in Hf.
Qed.

Lemma lastAt_not_overwritten l1 e l2 :
  Forall (λ e2, ¬ (LamportTS e2 = LamportTS e ∧ AgentID e2 = AgentID e)) l2 →
  lastAt (LamportTS e) (AgentID e) (l1 ++ e :: l2) = Some e.
Proof.
  intros Hl2. unfold lastAt.
  rewrite filter_app, filter_cons_True by done.
  assert (filter (λ e0, LamportTS e0 = LamportTS e ∧ AgentID e0 = AgentID e) l2 = []) as ->.
  { induction Hl2 as [|e2 l2 Hne _ IH]; [done|]. by rewrite filter_cons_False. }
  by rewrite last_snoc.
Qed.

(** C8 (amended).  For every event of the input, the row of its clock
    value has a cell in the column of its agent, and the cell holds the
    last event of the input with that clock value and agent, under the
    marker of that event's kind; it is the event itself when no later
    event shares its clock value and agent. *)
Theorem buildDiagramData_cell (agents : list Agent) (evs : list Event) (e : Event) :
  e ∈ evs →
  ∃ rows row e',
    buildDiagramData agents evs = Some (map agID agents, rows) ∧
    row ∈ rows ∧ lamportTS row = LamportTS e ∧
    lastAt (LamportTS e) (AgentID e) evs = Some e' ∧
    cells row !! AgentID e = Some (mkCell e' (cellLabel (Kind e'))) ∧
    (∀ l1 l2, evs = l1 ++ e :: l2 →
       Forall (λ e2, ¬ (LamportTS e2 = LamportTS e ∧ AgentID e2 = AgentID e)) l2 →
       e' = e).
Proof.
  intros Hin.
  destruct (buildDiagramData_rows agents evs) as (rows & Hb & Hmap & Hall).
  destruct (foldl_placeEvent_inv evs) as (Hnd & Hts & Hdom & Hrows).
  destruct (sortInt64s_sorted (foldl placeEvent (∅, []) evs).2) as [_ Hperm].
  assert (LamportTS e ∈ sortInt64s (foldl placeEvent (∅, []) evs).2) as Hsel.
  { rewrite Hperm. apply Hts. apply list_elem_of_fmap. eauto. }
  apply list_elem_of_lookup in Hsel as [i Hi].
  destruct (Forall2_lookup_l _ _ _ _ _ Hall Hi) as (row & Hrow & Hr).
  destruct (Hrows _ _ Hr) as [Hl Hc].
  destruct (lastAt_is_Some evs e Hin) as [e' He'].
  exists rows, row, e'. split; [done|]. split.
  { apply list_elem_of_lookup. eauto. }
  split; [done|]. split; [done|]. split.
  { rewrite Hc, He'. done. }
  intros l1 l2 -> Hl2. rewrite lastAt_not_overwritten in He' by done. congruence.
Qed.

Lemma buildDiagramData_cell_witness :
  ∃ rows row e',
    buildDiagramData [] overwrittenEvents = Some ([], rows) ∧
    row ∈ rows ∧ lamportTS row = 1 ∧
    lastAt 1 (str "alice") overwrittenEvents = Some e' ∧
    cells row !! str "alice" = Some (mkCell e' (cellLabel (Kind e'))) ∧
    e' = mkEvent 2 (str "alice") 1 EventProgress [] [] 0 0 0.
Proof.
  destruct (buildDiagramData_cell [] overwrittenEvents
              (mkEvent 2 (str "alice") 1 EventProgress [] [] 0 0 0))
    as (rows & row & e' & Hb & Hin & Hl & Hlast & Hcell & Hsame).
  { unfold overwrittenEvents. right. left. }
  exists rows, row, e'. repeat (split; [assumption|]).
  apply (Hsame [mkEvent 1 (str "alice") 1 EventMsg (str "bob") (str "hello") 0 0 0] []);
    [reflexivity|constructor].
Defined.

End DiagramProps.

(** ** Word wrapping *)

Module WrapProps.
Import Wrap.

(** The cases of the test-suite. *)
Example wrapText_multi_wrap :
  wrapText (str "one two three four five") 10
  = Some [str "one two"; str "three four"; str "five"].
Proof. reflexivity. Qed.

Example wrapText_long_word :
  wrapText (str "abcdefghij") 5 = Some [str "abcde"; str "fghij"].
Proof. reflexivity. Qed.

Example wrapText_trailing_newline :
  wrapText (str "hello" ++ [newline]) 80 = Some [str "hello"; []].
Proof. reflexivity. Qed.

Example truncate_long : truncate (str "hello world") 5 = Some (str "hello...").
Proof. reflexivity. Qed.

Example truncate_fits : truncate (str "abc") 3 = Some (str "abc").
Proof. reflexivity. Qed.

(** A space that ends up at the end of the text is consumed as well. *)
Example wrapText_trailing_space :
  wrapText (str "aaaa ") 4 = Some [str "aaaa"].
Proof. reflexivity. Qed.

Lemma rejoin_app p1 p2 : rejoin (p1 ++ p2) = rejoin p1 ++ rejoin p2.
Proof. unfold rejoin. by rewrite map_app, concat_app. Qed.

Lemma rejoin_cons l b ps : rejoin ((l, b) :: ps) = l ++ breakText b ++ rejoin ps.
Proof. unfold rejoin. simpl. by rewrite <- app_assoc. Qed.

(** The search stays in range, and what it finds is a space of [s]. *)
Lemma findCut_found (s : gostring) (i : nat) :
  (i < length s)%nat →
  ∃ cut, findCut s i = Some cut ∧
         (cut = -1 ∨ (0 < cut ≤ Z.of_nat i ∧ s !! Z.to_nat cut = Some space)).
Proof.
  induction i as [|i IH]; intros Hi; simpl.
  - exists (-1). split; [done|by left].
  - destruct (lookup_lt_is_Some_2 s (S i) Hi) as [c Hc]. rewrite Hc. simpl.
    case_decide as Hsp.
    + exists (Z.of_nat (S i)). split; [done|]. right. split; [lia|].
      rewrite Nat2Z.id. by rewrite Hc, Hsp.
    + destruct IH as (cut & Hcut & Hr); [lia|].
      exists cut. split; [done|]. destruct Hr as [?|[? ?]]; [by left|].
      right. split; [lia|done].
Qed.

(** The loop of [wrapParagraph] ends within [length s + 1] iterations when
    the width is positive, and its lines, each followed by nothing or by
    the space it consumed, spell the paragraph. *)
Lemma wrapLoop_pieces fuel : ∀ (s : gostring) (width : Z) lines,
  0 < width → (length s < fuel)%nat →
  ∃ pieces, wrapLoop fuel s width lines = Some (lines ++ pieces.*1) ∧
            Forall (λ p, inParagraph p.2) pieces ∧
            rejoin pieces = s ∧
            (s ≠ [] → pieces ≠ []).
Proof.
  induction fuel as [|fuel IH]; intros s width lines Hw Hfuel; [lia|].
  simpl. case_bool_decide as Hlen.
  - case_bool_decide as Hfit.
    + exists [(s, NoBreak)]. simpl. split; [done|]. split.
      * repeat constructor.
      * split; [|done]. unfold rejoin. simpl. by rewrite !app_nil_r.
    + destruct (findCut_found s (Z.to_nat width)) as (cut & Hcut & Hr); [lia|].
      rewrite Hcut. simpl. case_bool_decide as Hc.
      * destruct (IH (drop (Z.to_nat width) s) width
                     (lines ++ [take (Z.to_nat width) s]) Hw)
          as (pieces & Hrun & Hbr & Hjoin & _).
        { rewrite length_drop. lia. }
        exists ((take (Z.to_nat width) s, NoBreak) :: pieces).
        rewrite Hrun. split; [by rewrite <- app_assoc|]. split.
        { constructor; [by left|done]. }
        split; [|done]. rewrite rejoin_cons, Hjoin. simpl. apply take_drop.
      * destruct Hr as [?|[Hrange Hsp]]; [lia|].
        destruct (IH (drop (Z.to_nat (cut + 1)) s) width
                     (lines ++ [take (Z.to_nat cut) s]) Hw)
          as (pieces & Hrun & Hbr & Hjoin & _).
        { rewrite length_drop. lia. }
        exists ((take (Z.to_nat cut) s, SpaceBreak) :: pieces).
        rewrite Hrun. split; [by rewrite <- app_assoc|]. split.
        { constructor; [by right|done]. }
        split; [|done]. rewrite rejoin_cons, Hjoin. simpl.
        replace (Z.to_nat (cut + 1)) with (S (Z.to_nat cut)) by lia.
        by apply take_drop_middle.
  - exists []. simpl. rewrite app_nil_r. split; [done|]. split; [constructor|].
    destruct s; [done|]. simpl in Hlen. lia.
Qed.

Lemma wrapParagraph_pieces (s : gostring) (width : Z) :
  0 < width →
  ∃ pieces, wrapParagraph s width = Some (pieces.*1) ∧
            Forall (λ p, inParagraph p.2) pieces ∧
            rejoin pieces = s ∧ pieces ≠ [].
Proof.
  intros Hw. unfold wrapParagraph. case_bool_decide as Hfit.
  - exists [(s, NoBreak)]. simpl. split; [done|]. split; [repeat constructor|].
    split; [|done]. unfold rejoin. simpl. by rewrite !app_nil_r.
  - destruct (wrapLoop_pieces (S (length s)) s width [] Hw) as (pieces & Hrun & Hbr & Hjoin & Hne);
      [lia|].
    exists pieces. split; [done|]. split; [done|]. split; [done|].
    apply Hne. destruct s; [|done]. simpl in Hfit. lia.
Qed.

Lemma splitOn_nonempty sep s : splitOn sep s ≠ [].
Proof.
  destruct s as [|c s]; simpl; [done|].
  case_decide; [done|]. by destruct (splitOn sep s).
Qed.

(** Splitting at the newlines and putting the newlines back is the
    identity. *)
Lemma joinLines_splitOn s : joinLines (splitOn newline s) = s.
Proof.
  induction s as [|c s IH]; simpl; [done|].
  pose proof (splitOn_nonempty newline s) as Hne.
  destruct (splitOn newline s) as [|p ps]; [done|].
  case_decide as Hc.
  - subst c. simpl in *. by rewrite IH.
  - destruct ps as [|p' ps]; simpl in *; by rewrite IH.
Qed.

Lemma rejoin_paragraph_end pieces :
  pieces ≠ [] → Forall (λ p, inParagraph p.2) pieces →
  ∃ pieces', pieces'.*1 = pieces.*1 ∧ rejoin pieces' = rejoin pieces ++ [newline].
Proof.
  destruct pieces as [|[l b] ps _] using rev_ind; [done|]. intros _ Hall.
  apply Forall_app in Hall as [_ Hb]. rewrite Forall_singleton in Hb.
  unfold inParagraph in Hb. simpl in Hb.
  exists (ps ++ [(l, withNewline b)]). split.
  - by rewrite !fmap_app.
  - rewrite !rejoin_app. unfold rejoin at 2 4. simpl. rewrite !app_nil_r.
    rewrite <- !app_assoc. by destruct Hb as [Hb|Hb]; subst b.
Qed.

Lemma wrapParagraphs_pieces paragraphs : ∀ (width : Z) lines,
  0 < width →
  ∃ pieces, wrapParagraphs paragraphs width lines = Some (lines ++ pieces.*1) ∧
            rejoin pieces = joinLines paragraphs.
Proof.
  induction paragraphs as [|para rest IH]; intros width lines Hw.
  - exists []. simpl. by rewrite app_nil_r.
  - destruct (wrapParagraph_pieces para width Hw) as (pp & Hrun & Hbr & Hjoin & Hne).
    destruct (IH width (lines ++ pp.*1) Hw) as (pr & Hrest & Hjr).
    cbn [wrapParagraphs]. rewrite Hrun. simpl. rewrite Hrest.
    destruct rest as [|para' rest'].
    + exists (pp ++ pr). rewrite fmap_app, app_assoc. split; [done|].
      rewrite rejoin_app, Hjoin, Hjr. simpl. by rewrite app_nil_r.
    + destruct (rejoin_paragraph_end pp Hne Hbr) as (pp' & Hfst & Hj').
      exists (pp' ++ pr). rewrite fmap_app, Hfst, app_assoc. split; [done|].
      rewrite rejoin_app, Hj', Hjoin, Hjr.
      cbn [joinLines]. by rewrite <- app_assoc.
Qed.

(** C5.  For every body and every width, [wrapText] returns lines that
    spell the body when each line is followed by what came after it in
    the body: nothing, the single space consumed at a word break, the
    newline that ended its paragraph, or that space and that newline.
    No other character is dropped. *)
Theorem wrapText_lossless (s : gostring) (width : Z) :
  ∃ pieces, wrapText s width = Some (pieces.*1) ∧ rejoin pieces = s.
Proof.
  unfold wrapText.
  destruct (wrapParagraphs_pieces (splitOn newline s)
              (if bool_decide (width ≤ 0) then 80 else width) [])
    as (pieces & Hrun & Hjoin).
  { case_bool_decide; lia. }
  exists pieces. split; [done|]. by rewrite Hjoin, joinLines_splitOn.
Qed.

End WrapProps.

(** ** Agent-Detail view *)

Module DetailProps.
Import Wrap Snapshot Nav Detail.

(** A loop lists the entries of the newest [limit] events that pass its
    test. *)
Lemma entriesLoop_mapM selected entry limit newestFirst : ∀ count,
  entriesLoop selected entry limit newestFirst count =
    mapM entry (take (limit - count) (filter (λ e, selected e = true) newestFirst)).
Proof.
  induction newestFirst as [|e older IH]; intros count; simpl.
  - by rewrite filter_nil, take_nil.
  - case_bool_decide as Hc.
    + destruct (selected e) eqn:Hsel.
      * rewrite filter_cons_True by done. rewrite IH.
        replace (limit - count)%nat with (S (limit - S count)) by lia. done.
      * rewrite filter_cons_False by (by rewrite Hsel). apply IH.
    + replace (limit - count)%nat with 0%nat by lia. by rewrite take_0.
Qed.

Lemma mapM_total {A B} (f : A → option B) (g : A → B) (l : list A) :
  (∀ x, f x = Some (g x)) → mapM f l = Some (map g l).
Proof.
  intros Hf. induction l as [|x l IH]; [done|].
  simpl. by rewrite Hf, IH.
Qed.

Lemma lookupAgent_spec agents agentID :
  match lookupAgent agents agentID with
  | Some ag => ag ∈ agents ∧ agID ag = agentID
  | None => agentID ∉ map agID agents
  end.
Proof.
  induction agents as [|a agents IH]; simpl.
  - apply not_elem_of_nil.
  - case_bool_decide as Ha.
    + split; [left|done].
    + destruct (lookupAgent agents agentID) as [ag|].
      * destruct IH. split; [by right|done].
      * rewrite not_elem_of_cons. done.
Qed.

Lemma truncate_60 (s : gostring) :
  truncate s 60 = Some (if bool_decide (60 < length s)%nat
                        then take 60 s ++ str "..." else s).
Proof.
  unfold truncate. repeat case_bool_decide; try lia; done.
Qed.

Section Render.

Variables dimStyle msgToStyle msgFromStyle lockStyle detailSectionStyle
  detailHeaderStyle safeStyle unsafeStyle : gostring → gostring.
Variables fmtInt fmtIntPad4 : Z → gostring.
Variable fmtQuoted : gostring → gostring.
Variable kindText : EventKind → gostring.
Variables timeSince timeUntil : nat → Z → Z.
Variables intSeconds intMinutes intHours : Z → Z.

Abbreviation sentEntry := (sentEntry dimStyle msgToStyle fmtInt).
Abbreviation recvEntry := (recvEntry dimStyle msgFromStyle fmtInt).
Abbreviation activityEntry :=
  (activityEntry dimStyle lockStyle fmtInt fmtIntPad4 kindText).
Abbreviation renderSection := (renderSection dimStyle detailSectionStyle).
Abbreviation renderHead :=
  (renderHead dimStyle lockStyle detailSectionStyle detailHeaderStyle safeStyle
     unsafeStyle fmtInt timeSince timeUntil intSeconds intMinutes intHours).
Abbreviation renderAgentDetailFor :=
  (renderAgentDetailFor dimStyle msgToStyle msgFromStyle lockStyle detailSectionStyle
     detailHeaderStyle safeStyle unsafeStyle fmtInt fmtIntPad4 fmtQuoted kindText
     timeSince timeUntil intSeconds intMinutes intHours).

(** [truncate] is called with the limit 60: the entry of an event is never
    missing. *)
Lemma activityEntry_is_Some e : is_Some (activityEntry e).
Proof.
  unfold Detail.activityEntry, activityDetail.
  destruct (Kind e); simpl; rewrite ?truncate_60; simpl; eauto.
Qed.


(** The view of an agent of the snapshot: what comes before the
    sections, and the three sections with the entries of the newest
    events that pass the test of the section. *)
Lemma renderAgentDetailFor_found (m : uiModel) (agentID : gostring) (ag : Agent) :
  lookupAgent (Agents (snap m)) agentID = Some ag →
  ∃ activity,
    Forall2 (λ e line, activityEntry e = Some line)
      (take 20 (filter (λ e, AgentID e = agentID) (rev (Events (snap m))))) activity ∧
    renderAgentDetailFor m agentID =
      Some (renderHead m ag agentID ++
            renderSection (str "Messages Sent")
              (map sentEntry
                 (take 15 (filter (λ e, Kind e = EventMsg ∧ AgentID e = agentID)
                             (rev (Events (snap m)))))) ++ [newline] ++
            renderSection (str "Messages Received")
              (map recvEntry
                 (take 15 (filter (λ e, Kind e = EventMsg ∧ Target e = agentID)
                             (rev (Events (snap m)))))) ++ [newline] ++
            renderSection (str "Recent Activity") activity).
Proof.
  intros Hag. unfold Detail.renderAgentDetailFor. rewrite Hag.
  unfold sentEntries, recvEntries, activityEntries.
  rewrite !entriesLoop_mapM, !Nat.sub_0_r.
  rewrite (mapM_total (λ e, Some (sentEntry e)) sentEntry) by done.
  rewrite (mapM_total (λ e, Some (recvEntry e)) recvEntry) by done.
  assert (filter (λ e, sentBy agentID e = true) (rev (Events (snap m))) =
          filter (λ e, Kind e = EventMsg ∧ AgentID e = agentID) (rev (Events (snap m))))
    as ->.
  { apply list_filter_iff. intros e. unfold sentBy.
    by rewrite andb_true_iff, !bool_decide_eq_true. }
  assert (filter (λ e, receivedBy agentID e = true) (rev (Events (snap m))) =
          filter (λ e, Kind e = EventMsg ∧ Target e = agentID) (rev (Events (snap m))))
    as ->.
  { apply list_filter_iff. intros e. unfold receivedBy.
    by rewrite andb_true_iff, !bool_decide_eq_true. }
  assert (filter (λ e, actedBy agentID e = true) (rev (Events (snap m))) =
          filter (λ e, AgentID e = agentID) (rev (Events (snap m)))) as ->.
  { apply list_filter_iff. intros e. unfold actedBy. by rewrite bool_decide_eq_true. }
  destruct (mapM_is_Some_2 activityEntry
              (take 20 (filter (λ e, AgentID e = agentID) (rev (Events (snap m))))))
    as [activity Hact].
  { apply Forall_forall. intros e _. apply activityEntry_is_Some. }
  exists activity. split; [by apply mapM_Some_1|].
  rewrite Hact. done.
Qed.




(** X8.  For an id that no agent of the snapshot carries, the
    Agent-Detail view is the line "Agent ... not found" and nothing else.
    For an agent of the snapshot it is, after the header, the frontier
    line and the locks, the three sections with the newest matching events
    first and no more than their limit: "Messages Sent" shows the 15
    newest messages of the agent, "Messages Received" the 15 newest
    messages to the agent, "Recent Activity" the 20 newest events of the
    agent, one entry each; older ones are not shown. *)
Theorem detail_lists_newest (m : uiModel) (agentID : gostring) :
  (agentID ∉ map agID (Agents (snap m)) →
   renderAgentDetailFor m agentID =
     Some (dimStyle (str "  Agent " ++ fmtQuoted agentID ++ str " not found"))) ∧
  (agentID ∈ map agID (Agents (snap m)) →
   ∃ ag activity,
     lookupAgent (Agents (snap m)) agentID = Some ag ∧
     ag ∈ Agents (snap m) ∧ agID ag = agentID ∧
     Forall2 (λ e line, activityEntry e = Some line)
       (take 20 (filter (λ e, AgentID e = agentID) (rev (Events (snap m))))) activity ∧
     renderAgentDetailFor m agentID =
       Some (renderHead m ag agentID ++
             renderSection (str "Messages Sent")
               (map sentEntry
                  (take 15 (filter (λ e, Kind e = EventMsg ∧ AgentID e = agentID)
                              (rev (Events (snap m)))))) ++ [newline] ++
             renderSection (str "Messages Received")
               (map recvEntry
                  (take 15 (filter (λ e, Kind e = EventMsg ∧ Target e = agentID)
                              (rev (Events (snap m)))))) ++ [newline] ++
             renderSection (str "Recent Activity") activity)).
Proof.
  pose proof (lookupAgent_spec (Agents (snap m)) agentID) as Hfind.
  destruct (lookupAgent (Agents (snap m)) agentID) as [ag|] eqn:Hlook.
  - destruct Hfind as [Hin Hid]. split.
    + intros Hnin. exfalso. apply Hnin. apply list_elem_of_fmap. eauto.
    + intros _. destruct (renderAgentDetailFor_found m agentID ag Hlook)
        as (activity & Hact & Htext).
      by exists ag, activity.
  - split; [|done]. intros _. unfold Detail.renderAgentDetailFor. by rewrite Hlook.
Qed.

End Render.


Lemma detail_lists_newest_witness :
  renderAgentDetailFor id id id id id id id id (λ _, str "7") (λ _, str "7   ")
    (λ s, str "'" ++ s ++ str "'") (λ _, []) (λ _ _, 0) (λ _ _, 0) (λ _, 0) (λ _, 0) (λ _, 0)
    detailModel (str "carol") = Some (str "  Agent 'carol' not found").
Proof.
  apply (proj1 (detail_lists_newest id id id id id id id id (λ _, str "7")
                  (λ _, str "7   ") (λ s, str "'" ++ s ++ str "'") (λ _, [])
                  (λ _ _, 0) (λ _ _, 0) (λ _, 0) (λ _, 0) (λ _, 0)
                  detailModel (str "carol"))).
  apply (bool_decide_unpack _). vm_compute. exact I.
Defined.

End DetailProps.

(** ** Snapshot builder *)

Module SnapshotProps.
Import Snapshot.

Lemma wrap64_in_range z : - 2 ^ 63 ≤ z < 2 ^ 63 → wrap64 z = z.
Proof.
  intros Hz. unfold wrap64.
  rewrite Z.mod_small by lia. lia.
Qed.

(** The anchor of the event query, for a maximum id from which 500 can be
    subtracted in [int64] (any id but the 500 smallest negative ones). *)
Lemma anchor_max maxID :
  - 2 ^ 63 + 500 ≤ maxID < 2 ^ 63 →
  (if bool_decide (wrap64 (maxID - eventLimit) < 0) then 0
   else wrap64 (maxID - eventLimit)) = Z.max (maxID - 500) 0.
Proof.
  intros Hm. unfold eventLimit. rewrite wrap64_in_range by lia.
  case_bool_decide; lia.
Qed.

(** Pairwise distinct integers of a window of [n] values are at most [n]. *)
Lemma distinct_in_window (l : list Z) (lo : Z) (n : nat) :
  NoDup l → (∀ x, x ∈ l → lo < x ≤ lo + Z.of_nat n) → (length l ≤ n)%nat.
Proof.
  intros Hnd Hin.
  assert (l ⊆+ (λ i : nat, lo + 1 + Z.of_nat i) <$> seq 0 n) as Hsub.
  { apply NoDup_submseteq; [done|]. intros x Hx. specialize (Hin x Hx).
    apply list_elem_of_fmap. exists (Z.to_nat (x - lo - 1)). split; [lia|].
    apply elem_of_seq. lia. }
  apply submseteq_length in Hsub. by rewrite length_fmap, length_seq in Hsub.
Qed.

Lemma maxID_bounds (table : list Event) :
  Forall (λ e, 0 < ID e < 2 ^ 63) table →
  0 ≤ foldr Z.max 0 (map ID table) < 2 ^ 63 ∧
  ∀ e, e ∈ table → ID e ≤ foldr Z.max 0 (map ID table).
Proof.
  induction 1 as [|e table He _ IH]; simpl.
  - split; [lia|]. intros e He. by apply elem_of_nil in He.
  - destruct IH as [Hb Hle]. split; [lia|].
    intros e' [->|Hin]%elem_of_cons; [lia|]. specialize (Hle e' Hin). lia.
Qed.

Section Build.

Variable ComputeFrontier : list Pointstamp → list Pointstamp.
Variable ComputeFrontierStatus : gostring → Z * Z → list Pointstamp → FrontierStatus.
Variable now : Z.

Abbreviation Build := (Build ComputeFrontier ComputeFrontierStatus now).

(** C6.  For every store whose maximum event id is an [int64] from which
    500 can be subtracted without wrapping (every id from [0] up is),
    [Build] reads the events with the anchor [max(maxEventID - 500, 0)]
    and the limit 500, and takes [TotalEvents] from the count query: a snapshot it
    returns holds the answer of that query and that count, and it returns
    one whenever the four reads succeed.  On an event table with pairwise
    distinct positive ids the snapshot then holds every event whose id is
    above [maxEventID - 500], the newest one among them, and [TotalEvents]
    is the number of rows. *)
Theorem Build_newest_events (s : Store) :
  - 2 ^ 63 + 500 ≤ MaxEventID s < 2 ^ 63 →
  (∀ snap, Build s = Ok snap →
     ListEventsSinceID s (Z.max (MaxEventID s - 500) 0) 500 = Ok (Events snap) ∧
     TotalEvents snap = CountEvents s) ∧
  (∀ agents events locks active,
     ListAgents s = Ok agents →
     ListEventsSinceID s (Z.max (MaxEventID s - 500) 0) 500 = Ok events →
     ListLocks s = Ok locks →
     GetActivePointstamps s = Ok active →
     ∃ snap, Build s = Ok snap ∧ Agents snap = agents ∧ Events snap = events ∧
             Locks snap = locks ∧ TotalEvents snap = CountEvents s) ∧
  (∀ agents table locks active,
     s = tableStore agents table locks active → validTable table →
     ∃ snap, Build s = Ok snap ∧
             (∀ e, e ∈ table → MaxEventID s - 500 < ID e → e ∈ Events snap) ∧
             TotalEvents snap = Z.of_nat (length table)).
Proof.
  intros Hmax.
  assert (∀ agents events locks active,
     ListAgents s = Ok agents →
     ListEventsSinceID s (Z.max (MaxEventID s - 500) 0) 500 = Ok events →
     ListLocks s = Ok locks →
     GetActivePointstamps s = Ok active →
     ∃ snap, Build s = Ok snap ∧ Agents snap = agents ∧ Events snap = events ∧
             Locks snap = locks ∧ TotalEvents snap = CountEvents s) as Hruns.
  { intros agents events locks active Ha He Hl Hp.
    unfold Snapshot.Build. rewrite Ha. cbn [mbind result_bind].
    rewrite (anchor_max _ Hmax). change eventLimit with 500. rewrite He.
    cbn [mbind result_bind]. rewrite Hl. cbn [mbind result_bind]. rewrite Hp.
    cbn [mbind result_bind]. eexists. split; [reflexivity|]. done. }
  split; [|split; [exact Hruns|]].
  - intros snap. unfold Snapshot.Build.
    destruct (ListAgents s) as [agents|]; cbn [mbind result_bind]; [|done].
    rewrite (anchor_max _ Hmax). change eventLimit with 500.
    destruct (ListEventsSinceID s _ 500) as [events|]; cbn [mbind result_bind]; [|done].
    destruct (ListLocks s) as [locks|]; cbn [mbind result_bind]; [|done].
    destruct (GetActivePointstamps s) as [active|]; cbn [mbind result_bind]; [|done].
    intros [= <-]. done.
  - intros agents table locks active Hs [Hnd Hids].
    destruct (maxID_bounds table Hids) as [_ Hle].
    assert (MaxEventID s = foldr Z.max 0 (map ID table)) as Hm by (by subst s).
    set (anchor := Z.max (MaxEventID s - 500) 0) in *.
    assert (ListEventsSinceID s anchor 500
            = Ok (filter (λ e, anchor < ID e) table)) as Hq.
    { subst s. simpl. f_equal. apply take_ge.
      rewrite <- (length_fmap ID).
      apply (distinct_in_window _ (foldr Z.max 0 (map ID table) - 500)).
      - eapply sublist_NoDup; [exact Hnd|]. apply fmap_sublist, sublist_filter.
      - intros x (e & -> & He)%list_elem_of_fmap.
        apply list_elem_of_filter in He as [Hlt He]. specialize (Hle e He).
        simpl in anchor. lia. }
    destruct (Hruns agents (filter (λ e, anchor < ID e) table) locks active)
      as (snap & Hb & _ & Hev & _ & Htot);
      [by subst s|exact Hq|by subst s|by subst s|].
    exists snap. split; [done|]. split.
    + intros e He Hid. rewrite Hev. apply list_elem_of_filter. split; [|done].
      rewrite Forall_forall in Hids. specialize (Hids e He). lia.
    + rewrite Htot. by subst s.
Qed.

End Build.

Lemma Build_newest_events_witness :
  ∃ snap, Snapshot.Build (λ ps, ps) (λ _ _ _, mkFrontierStatus true []) 0
            (tableStore [] gappedTable [] []) = Ok snap ∧
          (∀ e, e ∈ gappedTable → 900 - 500 < ID e → e ∈ Events snap) ∧
          TotalEvents snap = 3.
Proof.
  apply (proj2 (proj2 (Build_newest_events (λ ps, ps) (λ _ _ _, mkFrontierStatus true []) 0
                         (tableStore [] gappedTable [] []) ltac:(simpl; lia)))
           [] gappedTable [] [] eq_refl).
  split.
  - apply NoDup_ListNoDup. simpl. repeat constructor; simpl; intuition lia.
  - unfold gappedTable. repeat constructor; simpl; lia.
Defined.

End SnapshotProps.

(** ** Navigation state machine *)

Module NavProps.
Import Snapshot Nav.

Lemma findAgent_range agents id : ∀ k i ag,
  findAgent agents id k = Some (i, ag) → (k ≤ i < k + length agents)%nat.
Proof.
  induction agents as [|a agents IH]; intros k i ag; simpl; [done|].
  case_bool_decide.
  - intros [= <- <-]. lia.
  - intros H'. apply IH in H'. lia.
Qed.

Lemma start_selectionInRange sn now refresh viewFlag agentFlag :
  selectionInRange (startModel sn now refresh viewFlag agentFlag).
Proof.
  unfold startModel, selectionInRange, agentCount.
  assert (∀ m, selectedAgent m = 0 →
     0 ≤ selectedAgent m < Z.of_nat (length (Agents (snap m))) ∨
     Z.of_nat (length (Agents (snap m))) = 0 ∧ selectedAgent m = 0) as Hzero.
  { intros m ->. destruct (Agents (snap m)); simpl; lia. }
  case_bool_decide.
  - destruct (findAgent (Agents sn) agentFlag 0) as [[i ag]|] eqn:Hf.
    + apply findAgent_range in Hf. destruct viewFlag; simpl; lia.
    + apply Hzero. by destruct viewFlag.
  - apply Hzero. by destruct viewFlag.
Qed.

(** No message moves the selection out of range. *)
Lemma Update_selectionInRange now m msg :
  selectionInRange m → selectionInRange (Update now m msg).1.
Proof.
  unfold selectionInRange, agentCount. intros Hm.
  destruct msg as [key|w h| |newSnap err| |]; simpl; try done.
  - destruct (viewKeys key) as [v|].
    + by destruct (filterable v).
    + unfold updateKey, agentCount.
      repeat (case_match; simpl in *; try done);
        repeat case_bool_decide; simpl in *; try done; lia.
  - destruct err as [e|]; [done|]. destruct newSnap as [sn|]; [|done].
    simpl. unfold agentCount. simpl.
    repeat case_bool_decide; simpl in *; lia.
Qed.

Lemma reachable_selectionInRange m : reachable m → selectionInRange m.
Proof.
  induction 1 as [sn now refresh viewFlag agentFlag|m now msg _ IH].
  - apply start_selectionInRange.
  - by apply Update_selectionInRange.
Qed.

(** C1.  After the navigation state machine has processed a snapshot-ready
    message, the agent-selection index is in range for the snapshot the
    model now holds: [0 <= index < agentCount], or [index = 0] when there
    is no agent.  A refresh that is accepted installs the new snapshot and
    clamps the index into [[0, agentCount - 1]], to 0 for an empty agent
    list; a refresh that failed leaves snapshot and index as they were. *)
Theorem refresh_selection_in_range (m : uiModel) (now : Z)
    (newSnap : option DataSnapshot) (err : option gostring) :
  reachable m →
  selectionInRange (Update now m (snapshotReadyMsg newSnap err)).1 ∧
  (∀ sn, newSnap = Some sn → err = None →
     snap (Update now m (snapshotReadyMsg newSnap err)).1 = sn ∧
     selectedAgent (Update now m (snapshotReadyMsg newSnap err)).1 =
       if bool_decide (length (Agents sn) = 0%nat) then 0
       else Z.min (selectedAgent m) (Z.of_nat (length (Agents sn)) - 1)) ∧
  (newSnap = None ∨ err ≠ None →
     (Update now m (snapshotReadyMsg newSnap err)).1 = m).
Proof.
  intros Hr. split; [|split].
  - apply Update_selectionInRange. by apply reachable_selectionInRange.
  - intros sn -> ->. cbn [Update fst]. unfold agentCount.
    repeat case_bool_decide; cbn [snap selectedAgent setSelectedAgent setLastRefresh setSnap] in *;
      (split; [done|lia]).
  - intros [-> | Herr]; simpl.
    + by destruct err.
    + by destruct err.
Qed.

Lemma refresh_selection_in_range_witness :
  selectedAgent onSecondAgent = 1 ∧
  selectionInRange
    (Update 1 onSecondAgent (snapshotReadyMsg (Some (snapshotOf [alice])) None)).1 ∧
  selectedAgent
    (Update 1 onSecondAgent (snapshotReadyMsg (Some (snapshotOf [alice])) None)).1 = 0.
Proof.
  split; [reflexivity|].
  destruct (refresh_selection_in_range onSecondAgent 1 (Some (snapshotOf [alice])) None)
    as (Hin & Hclamp & _).
  { apply reachable_update, reachable_start. }
  split; [exact Hin|].
  destruct (Hclamp (snapshotOf [alice]) eq_refl eq_refl) as [_ ->]. reflexivity.
Defined.

End NavProps.

(** ** Helpers of the views *)

Module HelpersProps.
Import Timeline Wrap Helpers.

(** The loops that collect the matching elements build the filtered list. *)
Lemma foldl_collect {A} (P : A → bool) (l : list A) : ∀ acc,
  foldl (λ out x, if P x then out ++ [x] else out) acc l
  = acc ++ filter (λ x, P x = true) l.
Proof.
  induction l as [|x l IH]; intros acc; simpl.
  - by rewrite app_nil_r.
  - rewrite IH. destruct (P x) eqn:HP.
    + rewrite filter_cons_True by done. by rewrite <- app_assoc.
    + rewrite filter_cons_False by (by rewrite HP). done.
Qed.

Lemma filterEvents_filter evs kind :
  filterEvents evs kind = filter (λ e, Kind e = kind) evs.
Proof.
  unfold filterEvents.
  rewrite (foldl_collect (λ e, bool_decide (Kind e = kind)) evs []). simpl.
  induction evs as [|e evs IH]; [done|].
  destruct (decide (Kind e = kind)) as [Hk|Hk].
  - rewrite !filter_cons_True; [by rewrite IH|done|by apply bool_decide_eq_true].
  - rewrite !filter_cons_False; [done|done|].
    rewrite bool_decide_eq_true. done.
Qed.

(** X21.  [filterEvents] keeps exactly the events of the kind, in the
    order of the input; filtering twice by one kind changes nothing more,
    and filtering by two different kinds leaves nothing. *)
Theorem filterEvents_kind (evs : list Event) (kind kind' : EventKind) :
  (∀ e, e ∈ filterEvents evs kind ↔ e ∈ evs ∧ Kind e = kind) ∧
  filterEvents evs kind `sublist_of` evs ∧
  filterEvents (filterEvents evs kind) kind' =
    (if decide (kind = kind') then filterEvents evs kind else []).
Proof.
  rewrite !filterEvents_filter. split; [|split].
  - intros e. rewrite list_elem_of_filter. tauto.
  - apply sublist_filter.
  - rewrite list_filter_filter. case_decide as Hk.
    + subst kind'. apply list_filter_iff. tauto.
    + induction evs as [|e evs IH]; [done|].
      rewrite filter_cons_False; [done|]. intros [? ?]. congruence.
Qed.

Lemma visibleEvents_filter evs agent :
  visibleEvents evs agent = filter (λ e, eventMatchesAgent e agent = true) evs.
Proof.
  unfold visibleEvents. case_bool_decide as Ha.
  - by rewrite (foldl_collect (λ e, eventMatchesAgent e agent) evs []).
  - assert (agent = []) as -> by (destruct (decide (agent = [])); [done|by destruct Ha]).
    symmetry. induction evs as [|e evs IH]; [done|].
    rewrite filter_cons_True by done. by rewrite IH.
Qed.

Lemma filter_keeps_sorted {A} (f : A → Z) (P : A → Prop) `{!∀ x, Decision (P x)}
    (l : list A) :
  StronglySorted Z.le (map f l) → StronglySorted Z.le (map f (filter P l)).
Proof.
  induction l as [|x l IH]; simpl; [done|]. intros Hs.
  apply StronglySorted_inv in Hs as [Hs Hall].
  destruct (decide (P x)).
  - rewrite filter_cons_True by done. simpl. constructor; [by apply IH|].
    rewrite Forall_forall in Hall. apply Forall_forall. intros y Hy. apply Hall.
    apply list_elem_of_fmap in Hy as (e & -> & He).
    apply list_elem_of_filter in He as [_ He]. apply list_elem_of_fmap. eauto.
  - rewrite filter_cons_False by done. by apply IH.
Qed.

(** X1.  The agent filter of the Timeline is applied before grouping: for
    events sorted by clock, the visible events are the events that
    involve the agent as sender or target, all events for the empty
    filter, in their order; they are still sorted, and their groups give
    them back with strictly increasing clock values. *)
Theorem visibleEvents_groups (evs : list Event) (agent : gostring) :
  Sorted Z.le (map LamportTS evs) →
  (∀ e, e ∈ visibleEvents evs agent ↔
        e ∈ evs ∧ (agent = [] ∨ AgentID e = agent ∨ Target e = agent)) ∧
  visibleEvents evs agent `sublist_of` evs ∧
  flatten (groupByLamport (visibleEvents evs agent)) = visibleEvents evs agent ∧
  StronglySorted Z.lt (map lamportTS (groupByLamport (visibleEvents evs agent))).
Proof.
  intros Hs. rewrite !visibleEvents_filter. split; [|split; [|split]].
  - intros e. rewrite list_elem_of_filter. unfold eventMatchesAgent.
    case_bool_decide as Ha.
    + split; [intros [_ ?]; split; [done|by left]|by intros [? _]].
    + rewrite orb_true_iff, !bool_decide_eq_true. split.
      * intros [[?|?] ?]; (split; [done|]); [right; by left|right; by right].
      * intros [? [?|[?|?]]]; [done|by split; [left|]|by split; [right|]].
  - apply sublist_filter.
  - apply TimelineProps.groupByLamport_flatten.
  - destruct (TimelineProps.groupByLamport_runs
                (filter (λ e, eventMatchesAgent e agent = true) evs)) as [Hr Hn].
    apply Sorted_StronglySorted; [intros x y z; lia|].
    apply TimelineProps.runs_strictly_increasing; [|done|done].
    rewrite TimelineProps.groupByLamport_flatten.
    apply filter_keeps_sorted.
    apply Sorted_StronglySorted; [intros x y z; lia|done].
Qed.

Lemma visibleEvents_groups_witness :
  visibleEvents sampleEvents (str "c") = drop 5 sampleEvents ∧
  flatten (groupByLamport (visibleEvents sampleEvents (str "b")))
  = visibleEvents sampleEvents (str "b").
Proof.
  split; [reflexivity|].
  apply (visibleEvents_groups sampleEvents (str "b")).
  unfold sampleEvents; simpl. repeat constructor; lia.
Defined.

Lemma agentIndexFrom_spec agents id : ∀ k,
  (agentIndexFrom agents id k = -1 ∧ id ∉ agents ∨
   ∃ i : nat, agentIndexFrom agents id k = k + Z.of_nat i ∧
              agents !! i = Some id ∧ ∀ j, (j < i)%nat → agents !! j ≠ Some id) ∨
  k < 0.
Proof.
  induction agents as [|a agents IH]; intros k; simpl.
  - left. left. split; [done|]. apply not_elem_of_nil.
  - destruct (Z_lt_dec k 0) as [?|Hk]; [by right|]. left.
    case_bool_decide as Ha.
    + right. exists 0%nat. subst a. split; [lia|]. split; [done|]. intros j ?. lia.
    + destruct (IH (k + 1)) as [[[Heq Hnin]|(i & Heq & Hi & Hfirst)]|?]; [| |lia].
      * left. split; [done|]. rewrite not_elem_of_cons. done.
      * right. exists (S i). split; [lia|]. split; [done|].
        intros [|j] ?; simpl; [congruence|]. apply Hfirst. lia.
Qed.

(** X2.  [agentIndex] returns -1 exactly for an id that is not in the
    column order; for an id that is, it returns the index of its first
    occurrence. *)
Theorem agentIndex_first (agents : list gostring) (id : gostring) :
  (agentIndex agents id = -1 ↔ id ∉ agents) ∧
  (id ∈ agents →
   0 ≤ agentIndex agents id < Z.of_nat (length agents) ∧
   agents !! Z.to_nat (agentIndex agents id) = Some id ∧
   ∀ j, (j < Z.to_nat (agentIndex agents id))%nat → agents !! j ≠ Some id).
Proof.
  unfold agentIndex.
  destruct (agentIndexFrom_spec agents id 0) as [[[Heq Hnin]|(i & Heq & Hi & Hfirst)]|?];
    [| |lia].
  - split; [done|]. intros Hin. done.
  - assert (id ∈ agents) as Hin by (apply list_elem_of_lookup; eauto).
    split.
    + split; [lia|done].
    + intros _. rewrite Heq. apply lookup_lt_Some in Hi as Hlt.
      replace (Z.to_nat (0 + Z.of_nat i)) with i by lia.
      split; [lia|]. done.
Qed.

Lemma agentIndex_first_witness :
  agentIndex [str "alice"; str "bob"; str "alice"] (str "alice") = 0 ∧
  [str "alice"; str "bob"; str "alice"]
    !! Z.to_nat (agentIndex [str "alice"; str "bob"; str "alice"] (str "bob"))
  = Some (str "bob").
Proof.
  split; [reflexivity|].
  apply (proj2 (agentIndex_first [str "alice"; str "bob"; str "alice"] (str "bob"))).
  right. left.
Defined.

(** X9.  [padOrTruncate] fails exactly for a negative width; on plain
    text (no escape codes: the styled line is the raw line) and a width
    that is not negative, the result is exactly [width] bytes long: the
    line followed by spaces when it fits, its first [width] bytes
    otherwise. *)
Theorem padOrTruncate_width (raw styled : gostring) (width : Z) :
  (padOrTruncate raw styled width = None ↔ width < 0) ∧
  (0 ≤ width →
   ∃ out, padOrTruncate raw raw width = Some out ∧
          Z.of_nat (length out) = width ∧
          (Z.of_nat (length raw) ≤ width →
             out = raw ++ replicate (Z.to_nat width - length raw) space) ∧
          (width < Z.of_nat (length raw) → out = take (Z.to_nat width) raw)).
Proof.
  split.
  - unfold padOrTruncate. repeat case_bool_decide; split; try done; lia.
  - intros Hw. unfold padOrTruncate. repeat case_bool_decide; try lia.
    + eexists. split; [done|]. rewrite length_take. split; [lia|]. split; [lia|done].
    + exists raw. split; [done|]. split; [lia|]. split; [|lia]. intros _.
      replace (Z.to_nat width - length raw)%nat with 0%nat by lia.
      simpl. by rewrite app_nil_r.
    + eexists. split; [done|]. rewrite length_app, length_replicate.
      split; [lia|]. split; [|lia]. intros _. do 2 f_equal. lia.
Qed.

Lemma padOrTruncate_width_witness :
  padOrTruncate (str "alice") (str "alice") 8 = Some (str "alice   ") ∧
  ∃ out, padOrTruncate (str "alice and bob") (str "alice and bob") 5 = Some out ∧
         Z.of_nat (length out) = 5.
Proof.
  split; [reflexivity|].
  destruct (proj2 (padOrTruncate_width (str "alice and bob") (str "alice and bob") 5)
              ltac:(lia)) as (out & Hout & Hlen & _).
  exists out. split; [exact Hout|exact Hlen].
Defined.

Lemma foldl_stripStep_out runes : ∀ out inEsc,
  escRune ∉ out →
  (escRune ∉ (foldl stripStep (out, inEsc) runes).1) ∧
  (inEsc = false → escRune ∉ runes →
     foldl stripStep (out, inEsc) runes = (out ++ runes, false)) ∧
  ∃ kept, (foldl stripStep (out, inEsc) runes).1 = out ++ kept ∧
          kept `sublist_of` runes.
Proof.
  induction runes as [|r runes IH]; intros out inEsc Hout; simpl.
  - split; [done|]. split; [intros -> _; by rewrite app_nil_r|].
    exists []. by rewrite app_nil_r.
  - unfold stripStep at 2 4 6. simpl. case_bool_decide as Hr.
    + destruct (IH out true Hout) as (H1 & _ & kept & Hk & Hsub).
      split; [done|]. split.
      * intros _ Hnin. exfalso. apply Hnin. subst r. left.
      * exists kept. split; [done|]. by apply sublist_cons.
    + destruct inEsc.
      * destruct (IH out (if isLetter r then false else true) Hout)
          as (H1 & _ & kept & Hk & Hsub).
        split; [done|]. split; [done|].
        exists kept. split; [done|]. by apply sublist_cons.
      * destruct (IH (out ++ [r]) false) as (H1 & H2 & kept & Hk & Hsub).
        { rewrite elem_of_app, list_elem_of_singleton. intros [?|?]; [done|].
          by apply Hr. }
        split; [done|]. split.
        -- intros _ Hnin. rewrite H2; [by rewrite <- app_assoc|done|].
           intros ?. apply Hnin. by right.
        -- exists (r :: kept). rewrite Hk, <- app_assoc. split; [done|].
           by apply sublist_skip.
Qed.

(** X10.  [stripAnsi], on the runes of its argument: the result holds no
    escape rune and is a subsequence of the input; an input without an
    escape rune is returned as it is; stripping twice is stripping once. *)
Theorem stripAnsi_clean (runes : list Z) :
  (escRune ∉ stripAnsi runes) ∧
  stripAnsi runes `sublist_of` runes ∧
  (escRune ∉ runes → stripAnsi runes = runes) ∧
  stripAnsi (stripAnsi runes) = stripAnsi runes.
Proof.
  assert (∀ rs, escRune ∉ rs → stripAnsi rs = rs) as Hid.
  { intros rs Hnin. unfold stripAnsi.
    destruct (foldl_stripStep_out rs [] false) as (_ & H2 & _); [apply not_elem_of_nil|].
    by rewrite H2. }
  assert (escRune ∉ stripAnsi runes) as Hclean.
  { unfold stripAnsi.
    destruct (foldl_stripStep_out runes [] false) as (H1 & _); [apply not_elem_of_nil|].
    exact H1. }
  split; [done|]. split; [|split; [apply Hid|by apply Hid]].
  unfold stripAnsi.
  destruct (foldl_stripStep_out runes [] false) as (_ & _ & kept & Hk & Hsub);
    [apply not_elem_of_nil|].
  by rewrite Hk.
Qed.

(** The escape sequence "ESC [ 1 m" around a word. *)
Example stripAnsi_bold :
  stripAnsi [27; 91; 49; 109; 104; 105; 27; 91; 48; 109] = [104; 105].
Proof. reflexivity. Qed.

(** The scrolling drops the lines before some line of the content, and
    cuts what is left to the height. *)
Lemma scrollWindow_from (lines : list gostring) (scrollPos contentHeight : Z) :
  lines ≠ [] →
  ∃ first : nat,
    (first < length lines)%nat ∧
    scrollWindow lines scrollPos contentHeight =
      (if bool_decide (Z.of_nat (length (drop first lines)) > contentHeight)
       then if bool_decide (contentHeight < 0) then None
            else Some (take (Z.to_nat contentHeight) (drop first lines))
       else Some (drop first lines)) ∧
    (0 ≤ scrollPos < Z.of_nat (length lines) → first = Z.to_nat scrollPos) ∧
    (Z.of_nat (length lines) ≤ scrollPos → first = (length lines - 1)%nat) ∧
    (scrollPos < 0 → first = 0%nat).
Proof.
  intros Hne. assert (1 ≤ length lines)%nat as Hlen by (destruct lines; [done|simpl; lia]).
  unfold scrollWindow.
  destruct (decide (scrollPos >= Z.of_nat (length lines))) as [Hov|Hov].
  - rewrite (bool_decide_true _ Hov).
    destruct (decide (Z.of_nat (length lines) - 1 > 0)) as [Hmany|Hone].
    + rewrite (bool_decide_true (0 `max` (Z.of_nat (length lines) - 1) > 0)) by lia.
      rewrite (bool_decide_true (0 `max` (Z.of_nat (length lines) - 1) < _)) by lia.
      simpl. exists (Z.to_nat (0 `max` (Z.of_nat (length lines) - 1))).
      split; [lia|]. split; [done|]. split; [lia|]. split; lia.
    + rewrite (bool_decide_false (0 `max` (Z.of_nat (length lines) - 1) > 0)) by lia.
      simpl. exists 0%nat. rewrite drop_0. split; [lia|]. split; [done|].
      split; [lia|]. split; lia.
  - rewrite (bool_decide_false _ Hov).
    destruct (decide (scrollPos > 0)) as [Hpos|Hpos].
    + rewrite (bool_decide_true _ Hpos), (bool_decide_true (scrollPos < _)) by lia.
      simpl. exists (Z.to_nat scrollPos).
      split; [lia|]. split; [done|]. split; [done|]. split; lia.
    + rewrite (bool_decide_false _ Hpos). simpl. exists 0%nat. rewrite drop_0.
      split; [lia|]. split; [done|]. split; [lia|]. split; lia.
Qed.

(** X11.  The scrolling of [View] fails exactly for a negative content
    height.  Otherwise, whatever the scroll offset, it shows the lines of
    the content from some line on, at most [contentHeight] of them: from
    line [scrollPos] when the offset is inside the content, from the last
    line when it is beyond the end, from the first line when it is
    negative. *)
Theorem scrollContent_window (content : gostring) (scrollPos contentHeight : Z) :
  (scrollContent content scrollPos contentHeight = None ↔ contentHeight < 0) ∧
  (0 ≤ contentHeight →
   ∃ first : nat,
     (first < length (splitOn newline content))%nat ∧
     scrollContent content scrollPos contentHeight =
       Some (joinLines (take (Z.to_nat contentHeight)
                          (drop first (splitOn newline content)))) ∧
     (0 ≤ scrollPos < Z.of_nat (length (splitOn newline content)) →
        first = Z.to_nat scrollPos) ∧
     (Z.of_nat (length (splitOn newline content)) ≤ scrollPos →
        first = (length (splitOn newline content) - 1)%nat) ∧
     (scrollPos < 0 → first = 0%nat)).
Proof.
  pose proof (WrapProps.splitOn_nonempty newline content) as Hne.
  unfold scrollContent.
  destruct (scrollWindow_from (splitOn newline content) scrollPos contentHeight Hne)
    as (first & Hlt & Heq & Hin & Hover & Hneg).
  rewrite Heq. split.
  - case_bool_decide as Hlong; [case_bool_decide as Hh|]; simpl.
    + done.
    + split; [done|lia].
    + split; [done|]. rewrite length_drop in Hlong. lia.
  - intros Hh. exists first. split; [done|]. split; [|done].
    repeat case_bool_decide; simpl; try done; try lia.
    rewrite take_ge; [done|]. lia.
Qed.

Lemma scrollContent_window_witness :
  scrollContent (str "one" ++ [newline] ++ str "two" ++ [newline] ++ str "three") 99 1
  = Some (str "three").
Proof.
  destruct (proj2 (scrollContent_window
              (str "one" ++ [newline] ++ str "two" ++ [newline] ++ str "three") 99 1)
              ltac:(lia)) as (first & _ & Heq & _ & Hlast & _).
  rewrite Heq, Hlast; [reflexivity|]. vm_compute. discriminate.
Defined.

End HelpersProps.

(** ** The rows of the diagram: arrows and cells *)

Module LayoutProps.
Import Diagram Readings.

Lemma arrowsAt_snoc ts evs e :
  arrowsAt ts (evs ++ [e]) =
    arrowsAt ts evs ++
    (if decide (Kind e = EventMsg ∧ Target e ≠ [] ∧ LamportTS e = ts) then [e] else []).
Proof. unfold arrowsAt. by rewrite filter_app, filter_cons, filter_nil. Qed.

Lemma trackMessage_messages row e :
  messages (trackMessage row e) =
    messages row ++
    (if decide (Kind e = EventMsg ∧ Target e ≠ []) then [arrowOf e] else []).
Proof.
  unfold trackMessage. case_decide as Hd.
  - destruct Hd as [Hk Ht]. rewrite !bool_decide_true by done. done.
  - rewrite app_nil_r. destruct (decide (Kind e = EventMsg)) as [Hk|Hk].
    + rewrite (bool_decide_true _ Hk), bool_decide_false; [done|].
      intros Ht. apply Hd. done.
    + by rewrite (bool_decide_false _ Hk).
Qed.

(** The arrows of a row are the messages with a target seen so far at the
    clock value of the row, in the order of the events. *)
Lemma placeEvent_arrows evs st e :
  placedInv evs st →
  (∀ ts row, st.1 !! ts = Some row → messages row = map arrowOf (arrowsAt ts evs)) →
  ∀ ts row, (placeEvent st e).1 !! ts = Some row →
            messages row = map arrowOf (arrowsAt ts (evs ++ [e])).
Proof.
  destruct st as [rowMap tss]. intros (_ & Hts & Hdom & _) Harr ts row'. simpl in *.
  unfold placeEvent. simpl. rewrite arrowsAt_snoc, map_app.
  assert (∀ row0, messages row0 = map arrowOf (arrowsAt (LamportTS e) evs) →
            messages (trackMessage (setCell row0 e) e) =
            map arrowOf (arrowsAt (LamportTS e) evs) ++
            map arrowOf (if decide (Kind e = EventMsg ∧ Target e ≠ [] ∧
                                    LamportTS e = LamportTS e) then [e] else [])) as Hnew.
  { intros row0 Hm. rewrite trackMessage_messages. simpl. rewrite Hm. f_equal.
    destruct (decide (Kind e = EventMsg ∧ Target e ≠ [])) as [[? ?]|Hn].
    - by rewrite decide_True.
    - rewrite decide_False; [done|]. intros (? & ? & _). by apply Hn. }
  destruct (rowMap !! LamportTS e) as [row|] eqn:Hrow; simpl.
  - destruct (decide (LamportTS e = ts)) as [<-|Hne].
    + rewrite lookup_insert_eq. intros [= <-]. apply Hnew. by apply Harr.
    + rewrite lookup_insert_ne by done. intros Hr.
      rewrite decide_False by (intros (_ & _ & ?); done).
      simpl. rewrite app_nil_r. by apply Harr.
  - destruct (decide (LamportTS e = ts)) as [<-|Hne].
    + rewrite lookup_insert_eq. intros [= <-]. apply Hnew. simpl.
      assert (arrowsAt (LamportTS e) evs = []) as ->; [|done].
      unfold arrowsAt. destruct (filter _ evs) as [|e' l] eqn:Hf; [done|].
      exfalso. assert (e' ∈ filter (λ e0, Kind e0 = EventMsg ∧ Target e0 ≠ [] ∧
                                          LamportTS e0 = LamportTS e) evs) as Hin
        by (rewrite Hf; left).
      apply list_elem_of_filter in Hin as [(_ & _ & Hl) Hin].
      assert (is_Some (rowMap !! LamportTS e)) as [? Hs]; [|congruence].
      apply Hdom, Hts. rewrite <- Hl. apply list_elem_of_fmap. eauto.
    + rewrite !lookup_insert_ne by done. intros Hr.
      rewrite decide_False by (intros (_ & _ & ?); done).
      simpl. rewrite app_nil_r. by apply Harr.
Qed.

Lemma foldl_placeEvent_arrows evs : ∀ ts row,
  (foldl placeEvent (∅, []) evs).1 !! ts = Some row →
  messages row = map arrowOf (arrowsAt ts evs).
Proof.
  induction evs as [|e evs IH] using rev_ind.
  - intros ts row. simpl. by rewrite lookup_empty.
  - rewrite foldl_app. simpl.
    apply placeEvent_arrows; [apply DiagramProps.foldl_placeEvent_inv|done].
Qed.

(** X3.  The arrows of a row of the diagram are exactly the messages with
    a target sent at the clock value of the row, each with its sender, its
    target and its body, in the order of the event list: a message without
    a target draws no arrow, and an arrow is kept even when the cell of
    its sender is taken by a later event. *)
Theorem buildDiagramData_arrows (agents : list Agent) (evs : list Event) :
  ∃ rows, buildDiagramData agents evs = Some (map agID agents, rows) ∧
    Forall (λ row, messages row = map arrowOf (arrowsAt (lamportTS row) evs)) rows.
Proof.
  destruct (DiagramProps.buildDiagramData_rows agents evs) as (rows & Hb & _ & Hall).
  destruct (DiagramProps.foldl_placeEvent_inv evs) as (_ & _ & _ & Hrows).
  exists rows. split; [done|].
  apply Forall_forall. intros row Hin.
  apply list_elem_of_lookup in Hin as [i Hi].
  destruct (Forall2_lookup_r _ _ _ _ _ Hall Hi) as (ts & _ & Hr).
  destruct (Hrows _ _ Hr) as [-> _].
  by apply foldl_placeEvent_arrows.
Qed.

(** The arrow of the first event of [overwrittenEvents] stays in the row
    although the cell of alice shows the heartbeat. *)
Example buildDiagramData_arrows_overwritten :
  ∃ row, buildDiagramData [] overwrittenEvents = Some ([], [row]) ∧
         messages row = [mkMsg (str "alice") (str "bob") (str "hello")] ∧
         label <$> cells row !! str "alice" = Some (str "*").
Proof. eexists. split; [reflexivity|]. split; reflexivity. Qed.

(** X4.  The diagram shows nothing that is not in the event list: every
    row has at least one cell, and every cell holds an event of the list
    whose clock value is that of the row and whose agent is the column of
    the cell, under the marker of the event's kind.  The column order is
    the agent list as given, whether or not an agent has events. *)
Theorem buildDiagramData_cells_sound (agents : list Agent) (evs : list Event) :
  ∃ rows, buildDiagramData agents evs = Some (map agID agents, rows) ∧
    Forall (λ row,
      cells row ≠ ∅ ∧
      ∀ ag c, cells row !! ag = Some c →
        event c ∈ evs ∧ LamportTS (event c) = lamportTS row ∧
        AgentID (event c) = ag ∧ label c = cellLabel (Kind (event c))) rows.
Proof.
  destruct (DiagramProps.buildDiagramData_rows agents evs) as (rows & Hb & _ & Hall).
  destruct (DiagramProps.foldl_placeEvent_inv evs) as (_ & Hts & Hdom & Hrows).
  exists rows. split; [done|].
  apply Forall_forall. intros row Hin.
  apply list_elem_of_lookup in Hin as [i Hi].
  destruct (Forall2_lookup_r _ _ _ _ _ Hall Hi) as (ts & _ & Hr).
  destruct (Hrows _ _ Hr) as [Hl Hc]. split.
  - assert (ts ∈ map LamportTS evs) as Hin by (apply Hts, Hdom; eauto).
    apply list_elem_of_fmap in Hin as (e & -> & He).
    destruct (DiagramProps.lastAt_is_Some evs e He) as [e' He'].
    intros Hempty. specialize (Hc (AgentID e)).
    rewrite Hempty, lookup_empty, He' in Hc. done.
  - intros ag c Hcell. rewrite Hc in Hcell.
    destruct (lastAt ts ag evs) as [e'|] eqn:Hlast; [|done].
    injection Hcell as <-. simpl.
    unfold lastAt in Hlast. apply last_Some_elem_of in Hlast.
    apply list_elem_of_filter in Hlast as [[? ?] ?]. subst ts. done.
Qed.

(** X5.  [sortInt64s] returns its argument in non-decreasing order, with
    the same values the same number of times; a slice that is already in
    order is returned as it is, so sorting twice is sorting once. *)
Theorem sortInt64s_sorts (s : list Z) :
  StronglySorted Z.le (sortInt64s s) ∧
  sortInt64s s ≡ₚ s ∧
  (StronglySorted Z.le s → sortInt64s s = s) ∧
  sortInt64s (sortInt64s s) = sortInt64s s.
Proof.
  assert (∀ l, StronglySorted Z.le l → sortInt64s l = l) as Hfix.
  { intros l Hl. destruct (DiagramProps.sortInt64s_sorted l) as [Hs Hp].
    apply (StronglySorted_unique Z.le); [done|done|done]. }
  destruct (DiagramProps.sortInt64s_sorted s) as [Hs Hp].
  split; [done|]. split; [done|]. split; [apply Hfix|by apply Hfix].
Qed.

End LayoutProps.

(** ** The width of wrapped and truncated text *)

Module TextProps.
Import Wrap.

Lemma splitOn_no_sep sep s : Forall (λ p, Forall (λ c, c ≠ sep) p) (splitOn sep s).
Proof.
  induction s as [|c s IH]; simpl; [by repeat constructor|].
  case_decide as Hc.
  - constructor; [constructor|done].
  - destruct (splitOn sep s) as [|p ps]; [by repeat constructor|].
    apply Forall_cons in IH as [Hp Hps]. constructor; [by constructor|done].
Qed.

(** The loop of [wrapParagraph] ends, and each line it adds is at most
    [width] bytes of the paragraph. *)
Lemma wrapLoop_lines (P : ascii → Prop) fuel : ∀ (s : gostring) (width : Z) lines,
  0 < width → (length s < fuel)%nat → Forall P s →
  ∃ new, wrapLoop fuel s width lines = Some (lines ++ new) ∧
         Forall (λ l, Z.of_nat (length l) ≤ width ∧ Forall P l) new.
Proof.
  induction fuel as [|fuel IH]; intros s width lines Hw Hfuel HP; [lia|].
  simpl. case_bool_decide as Hlen.
  - case_bool_decide as Hfit.
    + exists [s]. split; [done|]. by repeat constructor.
    + destruct (WrapProps.findCut_found s (Z.to_nat width)) as (cut & Hcut & Hr); [lia|].
      rewrite Hcut. simpl. case_bool_decide as Hc.
      * destruct (IH (drop (Z.to_nat width) s) width
                     (lines ++ [take (Z.to_nat width) s]) Hw)
          as (new & Hrun & Hnew).
        { rewrite length_drop. lia. }
        { by apply Forall_drop. }
        exists (take (Z.to_nat width) s :: new).
        rewrite Hrun. split; [by rewrite <- app_assoc|].
        constructor; [|done]. split; [rewrite length_take; lia|by apply Forall_take].
      * destruct Hr as [?|[Hrange Hsp]]; [lia|].
        destruct (IH (drop (Z.to_nat (cut + 1)) s) width
                     (lines ++ [take (Z.to_nat cut) s]) Hw)
          as (new & Hrun & Hnew).
        { rewrite length_drop. lia. }
        { by apply Forall_drop. }
        exists (take (Z.to_nat cut) s :: new).
        rewrite Hrun. split; [by rewrite <- app_assoc|].
        constructor; [|done]. split; [rewrite length_take; lia|by apply Forall_take].
  - exists []. rewrite app_nil_r. split; [done|constructor].
Qed.

Lemma wrapParagraph_lines (P : ascii → Prop) (s : gostring) (width : Z) :
  0 < width → Forall P s →
  ∃ new, wrapParagraph s width = Some new ∧
         Forall (λ l, Z.of_nat (length l) ≤ width ∧ Forall P l) new.
Proof.
  intros Hw HP. unfold wrapParagraph. case_bool_decide as Hfit.
  - exists [s]. split; [done|]. by repeat constructor.
  - destruct (wrapLoop_lines P (S (length s)) s width [] Hw) as (new & Hrun & Hnew);
      [lia|done|].
    exists new. by split.
Qed.

Lemma wrapParagraphs_lines (P : ascii → Prop) paragraphs : ∀ (width : Z) lines,
  0 < width → Forall (Forall P) paragraphs →
  ∃ new, wrapParagraphs paragraphs width lines = Some (lines ++ new) ∧
         Forall (λ l, Z.of_nat (length l) ≤ width ∧ Forall P l) new.
Proof.
  induction paragraphs as [|para rest IH]; intros width lines Hw HP.
  - exists []. simpl. rewrite app_nil_r. split; [done|constructor].
  - apply Forall_cons in HP as [Hpara Hrest].
    destruct (wrapParagraph_lines P para width Hw Hpara) as (pl & Hrun & Hpl).
    destruct (IH width (lines ++ pl) Hw Hrest) as (new & Hrec & Hnew).
    exists (pl ++ new). cbn [wrapParagraphs]. rewrite Hrun. simpl. rewrite Hrec.
    split; [by rewrite <- app_assoc|]. by apply Forall_app.
Qed.

(** X6.  For every text and every width [wrapText] returns, and no line
    it returns is longer than the width (80 for a width that is not
    positive) or holds a newline; a text without a newline that fits the
    width is its own single line. *)
Theorem wrapText_width (s : gostring) (width : Z) :
  ∃ lines, wrapText s width = Some lines ∧
    Forall (λ l, Z.of_nat (length l) ≤ (if bool_decide (width ≤ 0) then 80 else width) ∧
                 newline ∉ l) lines ∧
    (newline ∉ s →
     Z.of_nat (length s) ≤ (if bool_decide (width ≤ 0) then 80 else width) →
     lines = [s]).
Proof.
  unfold wrapText.
  destruct (wrapParagraphs_lines (λ c, c ≠ newline) (splitOn newline s)
              (if bool_decide (width ≤ 0) then 80 else width) [])
    as (lines & Hrun & Hlines).
  { case_bool_decide; lia. }
  { apply splitOn_no_sep. }
  exists lines. split; [done|]. split.
  - eapply Forall_impl; [exact Hlines|]. intros l [Hlen Hl]. split; [done|].
    intros Hin. rewrite Forall_forall in Hl. by apply (Hl newline).
  - intros Hnl Hfit. simpl in Hrun.
    assert (splitOn newline s = [s]) as Hone.
    { clear -Hnl. induction s as [|c s IH]; simpl; [done|].
      rewrite not_elem_of_cons in Hnl. destruct Hnl as [Hc Hs].
      rewrite decide_False by done. by rewrite IH. }
    rewrite Hone in Hrun. cbn [wrapParagraphs] in Hrun.
    unfold wrapParagraph in Hrun. rewrite bool_decide_true in Hrun by done.
    simpl in Hrun. by injection Hrun as <-.
Qed.

Lemma wrapText_width_witness :
  wrapText (str "hello world") 0 = Some [str "hello world"].
Proof.
  destruct (wrapText_width (str "hello world") 0) as (lines & Hrun & _ & Hone).
  rewrite Hrun, Hone; [reflexivity| |vm_compute; discriminate].
  vm_compute. intros Hin. repeat (apply elem_of_cons in Hin as [Hc|Hin]; [discriminate Hc|]).
  by apply elem_of_nil in Hin.
Defined.

(** X7.  [truncate] panics exactly for a negative limit.  For a limit
    [n] that is not negative it returns the string itself when it is at
    most [n] bytes long, and otherwise its first [n] bytes followed by
    "...": the result starts with the first [n] bytes of the string and is
    never longer than [n + 3] bytes, three more than the limit. *)
Theorem truncate_bounds (s : gostring) (n : Z) :
  (truncate s n = None ↔ n < 0) ∧
  (0 ≤ n →
   ∃ out, truncate s n = Some out ∧
     Z.of_nat (length out) ≤ n + 3 ∧
     take (Z.to_nat n) out = take (Z.to_nat n) s ∧
     (Z.of_nat (length s) ≤ n → out = s) ∧
     (n < Z.of_nat (length s) →
        out = take (Z.to_nat n) s ++ str "..." ∧
        Z.of_nat (length out) = n + 3)).
Proof.
  split.
  - unfold truncate. repeat case_bool_decide; split; try done; lia.
  - intros Hn. unfold truncate. case_bool_decide as Hfit.
    + exists s. split; [done|]. split; [lia|]. split; [done|]. split; [done|lia].
    + rewrite bool_decide_false by lia.
      exists (take (Z.to_nat n) s ++ str "..."). split; [done|].
      assert (length (take (Z.to_nat n) s ++ str "...") = (Z.to_nat n + 3)%nat) as Hlen.
      { rewrite length_app, length_take. simpl. lia. }
      split; [lia|]. split.
      * rewrite take_app_le by (rewrite length_take; lia).
        rewrite take_take. f_equal. lia.
      * split; [lia|]. intros _. split; [done|lia].
Qed.

Lemma truncate_bounds_witness :
  ∃ out, truncate (str "hello world") 5 = Some out ∧
         Z.of_nat (length out) ≤ 5 + 3 ∧
         take (Z.to_nat 5) out = str "hello".
Proof.
  destruct (proj2 (truncate_bounds (str "hello world") 5))
    as (out & Hout & Hlen & Hpre & _); [lia|].
  exists out. split; [exact Hout|]. split; [exact Hlen|]. rewrite Hpre. reflexivity.
Defined.

End TextProps.

(** ** What [Build] puts into a snapshot *)

Module BuildProps.
Import Snapshot Readings.

Section Build.

Variable ComputeFrontier : list Pointstamp → list Pointstamp.
Variable ComputeFrontierStatus : gostring → Z * Z → list Pointstamp → FrontierStatus.
Variable now : Z.

Abbreviation Build := (Build ComputeFrontier ComputeFrontierStatus now).
Abbreviation statusOf active :=
  (λ ag, ComputeFrontierStatus (agID ag) (agEpoch ag, agRound ag) active).

(** A snapshot is built from the answers of the four reads. *)
Lemma Build_Ok_inv (s : Store) (sn : DataSnapshot) :
  Build s = Ok sn →
  ∃ agents events locks active,
    ListAgents s = Ok agents ∧
    ListEventsSinceID s (anchorOf (MaxEventID s)) eventLimit = Ok events ∧
    ListLocks s = Ok locks ∧
    GetActivePointstamps s = Ok active ∧
    sn = mkSnapshot agents events locks (ComputeFrontier active)
           (foldl (frontierStatusStep ComputeFrontierStatus active) ∅ agents)
           (foldl (countStep now) (0, 0) agents).1
           (foldl (countStep now) (0, 0) agents).2
           (CountEvents s) (Z.of_nat (length locks)) now.
Proof.
  unfold Snapshot.Build, anchorOf.
  destruct (ListAgents s) as [agents|?]; simpl; [|done].
  destruct (ListEventsSinceID s _ eventLimit) as [events|?]; simpl; [|done].
  destruct (ListLocks s) as [locks|?]; simpl; [|done].
  destruct (GetActivePointstamps s) as [active|?]; simpl; [|done].
  intros [= <-]. by exists agents, events, locks, active.
Qed.

Lemma foldl_countStep agents : ∀ counts,
  0 ≤ counts.1 → 0 ≤ counts.2 →
  0 ≤ (foldl (countStep now) counts agents).1 ∧
  0 ≤ (foldl (countStep now) counts agents).2 ∧
  (foldl (countStep now) counts agents).1 + (foldl (countStep now) counts agents).2
  = counts.1 + counts.2 + Z.of_nat (length agents).
Proof.
  induction agents as [|ag agents IH]; intros counts Ha Hs.
  - simpl. lia.
  - cbn [foldl].
    assert (0 ≤ (countStep now counts ag).1 ∧ 0 ≤ (countStep now counts ag).2 ∧
            (countStep now counts ag).1 + (countStep now counts ag).2
            = counts.1 + counts.2 + 1) as (H1 & H2 & H3).
    { unfold countStep. case_bool_decide; simpl; lia. }
    destruct (IH (countStep now counts ag) H1 H2) as (? & ? & Hsum).
    split; [done|]. split; [done|]. rewrite Hsum, H3. simpl length. lia.
Qed.

(** The status table after the loop: the entry of an id is computed from
    the last agent that carries the id. *)
Lemma foldl_frontierStatusStep active agents id : ∀ fStatus,
  foldl (frontierStatusStep ComputeFrontierStatus active) fStatus agents !! id =
    match last (filter (λ ag, agID ag = id) agents) with
    | Some ag => Some (statusOf active ag)
    | None => fStatus !! id
    end.
Proof.
  induction agents as [|ag agents IH]; intros fStatus; simpl; [done|].
  rewrite IH. unfold frontierStatusStep at 1.
  destruct (decide (agID ag = id)) as [Hid|Hid].
  - rewrite filter_cons_True by done.
    destruct (filter (λ ag0, agID ag0 = id) agents) as [|a l] eqn:Hf; simpl.
    + by rewrite Hid, lookup_insert_eq.
    + by destruct (last (a :: l)) eqn:Hl; [|apply last_None in Hl].
  - rewrite filter_cons_False by done.
    destruct (last _); [done|]. by rewrite lookup_insert_ne.
Qed.

(** X17.  [Build] fails exactly when one of its four reads fails, and
    then with the error of the first read that failed, in the order
    agents, events, locks, active pointstamps, as it is. *)
Theorem Build_first_error (s : Store) (err : gostring) :
  Build s = Err err ↔
    ListAgents s = Err err ∨
    (∃ agents, ListAgents s = Ok agents) ∧
    (ListEventsSinceID s (anchorOf (MaxEventID s)) eventLimit = Err err ∨
     (∃ events, ListEventsSinceID s (anchorOf (MaxEventID s)) eventLimit = Ok events) ∧
     (ListLocks s = Err err ∨
      (∃ locks, ListLocks s = Ok locks) ∧ GetActivePointstamps s = Err err)).
Proof.
  unfold Snapshot.Build, anchorOf.
  destruct (ListAgents s) as [agents|e1]; simpl.
  2:{ split; [intros [= ->]; by left|].
      intros [[= ->]|[[? ?] _]]; done. }
  destruct (ListEventsSinceID s _ eventLimit) as [events|e2]; simpl.
  2:{ split; [intros [= ->]; right; split; [eauto|by left]|].
      intros [?|[_ [[= ->]|[[? ?] _]]]]; done. }
  destruct (ListLocks s) as [locks|e3]; simpl.
  2:{ split; [intros [= ->]; right; split; [eauto|]; right; split; [eauto|by left]|].
      intros [?|[_ [?|[_ [[= ->]|[[? ?] _]]]]]]; done. }
  destruct (GetActivePointstamps s) as [active|e4]; simpl.
  2:{ split.
      - intros [= ->]. right. split; [eauto|]. right. split; [eauto|].
        right. split; [eauto|done].
      - intros [?|[_ [?|[_ [?|[_ [= ->]]]]]]]; done. }
  split; [done|]. intros [?|[_ [?|[_ [?|[_ ?]]]]]]; done.
Qed.

(** X18.  In a snapshot [Build] returns, the agents, the locks and the
    events are the answers of the store, every agent is counted once, as
    active or as stale, whatever the clock reads, the lock count is the
    number of locks and the event total is the count of the store, not the
    number of events held. *)
Theorem Build_counts (s : Store) (sn : DataSnapshot) :
  Build s = Ok sn →
  ListAgents s = Ok (Agents sn) ∧
  ListLocks s = Ok (Locks sn) ∧
  ListEventsSinceID s (anchorOf (MaxEventID s)) eventLimit = Ok (Events sn) ∧
  0 ≤ ActiveAgents sn ∧ 0 ≤ StaleAgents sn ∧
  ActiveAgents sn + StaleAgents sn = Z.of_nat (length (Agents sn)) ∧
  ActiveLocks sn = Z.of_nat (length (Locks sn)) ∧
  TotalEvents sn = CountEvents s.
Proof.
  intros Hb.
  apply Build_Ok_inv in Hb as (agents & events & locks & active & Ha & He & Hl & _ & ->).
  simpl. destruct (foldl_countStep agents (0, 0)) as (Hact & Hstale & Hsum); simpl; [lia|lia|].
  simpl in Hsum. do 3 (split; [done|]). split; [done|]. split; [done|].
  split; [lia|done].
Qed.

(** X19.  In a snapshot [Build] returns, the frontier is computed from the
    active pointstamps, and the status table has an entry for exactly the
    ids of the agents: the status computed from the epoch and round of the
    last agent listed under the id, so of the agent itself when the ids
    are distinct. *)
Theorem Build_frontier_status (s : Store) (sn : DataSnapshot) :
  Build s = Ok sn →
  ∃ active, GetActivePointstamps s = Ok active ∧
    Frontier sn = ComputeFrontier active ∧
    (∀ id, is_Some (FrontierStatusOf sn !! id) ↔ id ∈ map agID (Agents sn)) ∧
    (∀ id, FrontierStatusOf sn !! id =
             statusOf active <$> last (filter (λ ag, agID ag = id) (Agents sn))) ∧
    (NoDup (map agID (Agents sn)) →
     ∀ ag, ag ∈ Agents sn → FrontierStatusOf sn !! agID ag = Some (statusOf active ag)).
Proof.
  intros Hb.
  apply Build_Ok_inv in Hb as (agents & events & locks & active & _ & _ & _ & Hp & ->).
  exists active. simpl. split; [done|]. split; [done|].
  assert (∀ id, foldl (frontierStatusStep ComputeFrontierStatus active) ∅ agents !! id =
            statusOf active <$> last (filter (λ ag, agID ag = id) agents)) as Hlook.
  { intros id. rewrite foldl_frontierStatusStep. destruct (last _); [done|].
    by rewrite lookup_empty. }
  split; [|split; [done|]].
  - intros id. rewrite Hlook, fmap_is_Some. split.
    + intros [ag Hag]. apply last_Some_elem_of in Hag.
      apply list_elem_of_filter in Hag as [<- Hin]. apply list_elem_of_fmap. eauto.
    + intros Hin. apply list_elem_of_fmap in Hin as (ag & -> & Hin).
      destruct (last _) eqn:Hl; [eauto|]. apply last_None in Hl.
      assert (ag ∈ filter (λ ag0, agID ag0 = agID ag) agents) as Hf
        by (by apply list_elem_of_filter).
      rewrite Hl in Hf. by apply elem_of_nil in Hf.
  - intros Hnd ag Hin. rewrite Hlook.
    destruct (last _) as [ag'|] eqn:Hl.
    + apply last_Some_elem_of in Hl. apply list_elem_of_filter in Hl as [Hid Hin'].
      assert (ag' = ag) as ->; [|done].
      apply list_elem_of_lookup in Hin as [i Hi]. apply list_elem_of_lookup in Hin' as [j Hj].
      assert (i = j) as ->; [|congruence].
      apply (NoDup_lookup _ _ _ (agID ag) Hnd); rewrite list_lookup_fmap.
      * by rewrite Hi.
      * rewrite Hj. simpl. by rewrite Hid.
    + apply last_None in Hl.
      assert (ag ∈ filter (λ ag0, agID ag0 = agID ag) agents) as Hf
        by (by apply list_elem_of_filter).
      rewrite Hl in Hf. by apply elem_of_nil in Hf.
Qed.

End Build.

Lemma Build_counts_witness :
  ∃ sn, Snapshot.Build id (λ _ _ _, mkFrontierStatus true []) 0
          (tableStore [Nav.alice; Nav.bob] gappedTable [] []) = Ok sn ∧
        ActiveAgents sn + StaleAgents sn = 2 ∧ TotalEvents sn = 3.
Proof.
  eexists. split; [reflexivity|].
  pose proof (Build_counts id (λ _ _ _, mkFrontierStatus true []) 0
                (tableStore [Nav.alice; Nav.bob] gappedTable [] []) _ eq_refl)
    as (_ & _ & _ & _ & _ & Hsum & _ & Htotal).
  split; [exact Hsum|exact Htotal].
Defined.

Lemma Build_frontier_status_witness :
  ∃ sn, Snapshot.Build id (λ ag _ _, mkFrontierStatus (bool_decide (ag = str "bob")) [])
          0 (tableStore [Nav.alice; Nav.bob] gappedTable [] []) = Ok sn ∧
        SafeToFinalize <$> FrontierStatusOf sn !! str "bob" = Some true ∧
        FrontierStatusOf sn !! str "carol" = None.
Proof.
  eexists. split; [reflexivity|].
  destruct (Build_frontier_status id
              (λ ag _ _, mkFrontierStatus (bool_decide (ag = str "bob")) []) 0
              (tableStore [Nav.alice; Nav.bob] gappedTable [] []) _ eq_refl)
    as (active & _ & _ & _ & Hlook & _).
  rewrite !Hlook. split; reflexivity.
Defined.

End BuildProps.

(** ** The JSON dump *)

Module DumpProps.
Import Snapshot Helpers JsonDump Readings.

Section Dump.

Variable ComputeFrontier : list Pointstamp → list Pointstamp.
Variable ComputeFrontierStatus : gostring → Z * Z → list Pointstamp → FrontierStatus.
Variable now : Z.
Variable formatRFC3339 : Z → gostring.

(** X22.  The JSON dump lists the agents, the locks and the frontier of
    the snapshot one for one and in order, and as messages the events of
    kind message, in order; an agent without an entry in the status table
    is dumped as not safe.  For a snapshot [Build] returns with agents of
    distinct ids no agent lacks its entry: each is dumped with the safety
    computed from its own epoch and round, and the two agent counts of the
    statistics add up to the number of agents dumped. *)
Theorem buildJSONOutput_of_Build (s : Store) (sn : DataSnapshot) :
  (joMessages (buildJSONOutput formatRFC3339 sn) =
     map dumpMessage (filter (λ e, Kind e = EventMsg) (Events sn)) ∧
   jaID <$> joAgents (buildJSONOutput formatRFC3339 sn) = agID <$> Agents sn ∧
   jlPath <$> joLocks (buildJSONOutput formatRFC3339 sn) = lkPath <$> Locks sn ∧
   jpAgentID <$> joFrontier (buildJSONOutput formatRFC3339 sn) = psAgentID <$> Frontier sn ∧
   ∀ ag, ag ∈ Agents sn → FrontierStatusOf sn !! agID ag = None →
         jaSafe (dumpAgent formatRFC3339 sn ag) = false) ∧
  (Build ComputeFrontier ComputeFrontierStatus now s = Ok sn →
   NoDup (map agID (Agents sn)) →
   ∃ active, GetActivePointstamps s = Ok active ∧
     joAgents (buildJSONOutput formatRFC3339 sn) =
       map (λ ag, mkJsonAgent (agID ag) (agClock ag) (agEpoch ag) (agRound ag)
                    (formatRFC3339 (agLastSeen ag))
                    (SafeToFinalize
                       (ComputeFrontierStatus (agID ag) (agEpoch ag, agRound ag) active)))
           (Agents sn) ∧
     jsActiveAgents (joStats (buildJSONOutput formatRFC3339 sn)) +
     jsStaleAgents (joStats (buildJSONOutput formatRFC3339 sn))
     = Z.of_nat (length (joAgents (buildJSONOutput formatRFC3339 sn)))).
Proof.
  split.
  - unfold buildJSONOutput. simpl. rewrite HelpersProps.filterEvents_filter.
    split; [done|]. rewrite <- !list_fmap_compose.
    split; [done|]. split; [done|]. split; [done|].
    intros ag _ Hnone. unfold dumpAgent. simpl. by rewrite Hnone.
  - intros Hb Hnd.
    apply BuildProps.Build_Ok_inv in Hb
      as (agents & events & locks & active & _ & _ & _ & Hp & ->).
    exists active. split; [done|]. unfold buildJSONOutput. simpl in *. split.
    + apply map_ext_in. intros ag Hin. apply list_elem_of_In in Hin.
      unfold dumpAgent. simpl.
      rewrite BuildProps.foldl_frontierStatusStep.
      destruct (last _) as [ag'|] eqn:Hl.
      * apply last_Some_elem_of in Hl. apply list_elem_of_filter in Hl as [Hid Hin'].
        assert (ag' = ag) as ->; [|done].
        apply list_elem_of_lookup in Hin as [i Hi].
        apply list_elem_of_lookup in Hin' as [j Hj].
        assert (i = j) as ->; [|congruence].
        apply (NoDup_lookup _ _ _ (agID ag) Hnd); rewrite list_lookup_fmap.
        -- by rewrite Hi.
        -- rewrite Hj. simpl. by rewrite Hid.
      * apply last_None in Hl.
        assert (ag ∈ filter (λ ag0, agID ag0 = agID ag) agents) as Hf
          by (by apply list_elem_of_filter).
        rewrite Hl in Hf. by apply elem_of_nil in Hf.
    + rewrite length_map.
      destruct (BuildProps.foldl_countStep now agents (0, 0)) as (_ & _ & Hsum);
        simpl; [lia|lia|].
      simpl in Hsum. lia.
Qed.

End Dump.

Lemma buildJSONOutput_of_Build_witness :
  ∃ sn, Snapshot.Build id (λ ag _ _, mkFrontierStatus (bool_decide (ag = str "bob")) [])
          0 (tableStore [Nav.alice; Nav.bob] gappedTable [] []) = Ok sn ∧
        jaSafe <$> joAgents (buildJSONOutput (λ _, []) sn) = [false; true].
Proof.
  eexists. split; [reflexivity|].
  destruct (proj2 (buildJSONOutput_of_Build id
              (λ ag _ _, mkFrontierStatus (bool_decide (ag = str "bob")) []) 0 (λ _, [])
              (tableStore [Nav.alice; Nav.bob] gappedTable [] []) _) eq_refl)
    as (active & Hp & Hagents & _).
  { apply (bool_decide_unpack _). vm_compute. exact I. }
  rewrite Hagents. reflexivity.
Defined.

End DumpProps.

(** ** Key presses *)

Module KeysProps.
Import Snapshot Nav Readings.

Lemma start_navInv sn now refresh viewFlag agentFlag :
  navInv (startModel sn now refresh viewFlag agentFlag).
Proof.
  unfold startModel, navInv. case_bool_decide.
  - destruct (findAgent (Agents sn) agentFlag 0) as [[i ag]|]; destruct viewFlag; simpl; done.
  - destruct viewFlag; simpl; done.
Qed.

Lemma filterable_views v :
  filterable v = true → v = viewMessages ∨ v = viewTimeline.
Proof.
  unfold filterable. rewrite orb_true_iff, !bool_decide_eq_true. done.
Qed.

Lemma Update_navInv now m msg : navInv m → navInv (Update now m msg).1.
Proof.
  unfold navInv. intros (Hs & Hf & Hd).
  destruct msg as [key|w h| |newSnap err| |]; simpl; try done.
  - destruct (viewKeys key) as [v|].
    + destruct (filterable v) eqn:Hv; simpl; [|done].
      split; [done|]. split; [|done]. intros _. by apply filterable_views.
    + unfold updateKey.
      repeat (case_match; simpl in *; try done).
      all: repeat match goal with
             | H : _ && _ = true |- _ => apply andb_true_iff in H as [? ?]
             | H : bool_decide _ = true |- _ => apply bool_decide_eq_true in H
             | H : bool_decide _ = false |- _ => apply bool_decide_eq_false in H
             | H : filterable _ = true |- _ => apply filterable_views in H
             end.
      all: split; [lia|]; split;
        [ intros Hne; first [ done | by apply Hf | exfalso; destruct (Hf Hne);
                              unfold viewMessages, viewTimeline, viewAgentDetail,
                                viewDashboard in *; lia ]
        | intros Hv; first [ done | by apply Hd ] ].
  - destruct err as [e|]; [done|]. destruct newSnap as [sn|]; [|done].
    simpl. repeat case_bool_decide; simpl; done.
Qed.

(** X12.  Whatever the flags the program was started with and whatever
    messages it has handled since, the scroll offset is not negative, an
    agent filter is set only in the Messages and Timeline views, and the
    detail focus is empty outside the Agent-Detail view. *)
Theorem navigation_invariant (m : uiModel) :
  reachable m →
  0 ≤ scrollPos m ∧
  (filterAgent m ≠ [] → activeView m = viewMessages ∨ activeView m = viewTimeline) ∧
  (activeView m ≠ viewAgentDetail → detailAgentID m = []).
Proof.
  induction 1 as [sn now refresh viewFlag agentFlag|m now msg _ IH].
  - apply start_navInv.
  - by apply Update_navInv.
Qed.

Lemma navigation_invariant_witness :
  0 ≤ scrollPos (press (str "k") inMessages) ∧
  detailAgentID (press (str "k") inMessages) = [].
Proof.
  destruct (navigation_invariant (press (str "k") inMessages)) as (Hs & _ & Hd).
  { unfold inMessages, press. do 2 apply reachable_update. apply reachable_start. }
  split; [exact Hs|]. apply Hd. vm_compute. discriminate.
Defined.

(** *** Tab *)

Lemma press_tab m :
  press (str "tab") m =
    let m1 :=
      if bool_decide (activeView m = viewAgentDetail)
      then setDetailAgentID (setActiveView m viewDashboard) []
      else setActiveView m (Z.rem (wrap64 (activeView m + 1)) viewCount) in
    let m2 := if filterable (activeView m1) then m1 else setFilterAgent m1 [] in
    setScrollPos m2 0.
Proof. reflexivity. Qed.

(** X13.  Tab walks the six tabs in order and comes back: from a tab it
    goes to the next one, from the last one to the first, so six presses
    return to the tab they started from; from Agent-Detail it goes to the
    Dashboard and drops the detail focus.  It always resets the scroll
    offset and never touches the snapshot or the selection. *)
Theorem tab_cycles (m : uiModel) :
  (0 ≤ activeView m < viewCount →
     activeView (press (str "tab") m) = (activeView m + 1) `mod` viewCount ∧
     activeView (Nat.iter 6 (press (str "tab")) m) = activeView m) ∧
  (activeView m = viewAgentDetail →
     activeView (press (str "tab") m) = viewDashboard ∧
     detailAgentID (press (str "tab") m) = []) ∧
  scrollPos (press (str "tab") m) = 0 ∧
  snap (press (str "tab") m) = snap m ∧
  selectedAgent (press (str "tab") m) = selectedAgent m.
Proof.
  split; [|split; [|split; [|split]]].
  - intros Hv. destruct m as [sn v pv w h sp sel det fil ri hw sh lr]. simpl in Hv.
    unfold viewCount in Hv.
    assert (v = 0 ∨ v = 1 ∨ v = 2 ∨ v = 3 ∨ v = 4 ∨ v = 5) as Hcases by lia.
    destruct Hcases as [->|[->|[->|[->|[->| ->]]]]]; split; reflexivity.
  - intros Hv. rewrite press_tab. cbv zeta. rewrite bool_decide_true by done. done.
  - by rewrite press_tab.
  - rewrite press_tab. cbv zeta. by repeat case_match.
  - rewrite press_tab. cbv zeta. by repeat case_match.
Qed.

Lemma tab_cycles_witness :
  activeView (press (str "tab") inMessages) = viewLocks ∧
  activeView (Nat.iter 6 (press (str "tab")) inMessages) = viewMessages.
Proof.
  destruct (proj1 (tab_cycles inMessages)) as [Hnext Hback].
  { vm_compute. split; [discriminate|reflexivity]. }
  split; [rewrite Hnext|rewrite Hback]; reflexivity.
Defined.

(** *** The filter key *)

Lemma press_filter m :
  press (str "/") m =
    if filterable (activeView m) then
      setScrollPos
        (if bool_decide (filterAgent m = []) && bool_decide (agentCount m > 0)
         then setFilterAgent m (default [] (agID <$> head (Agents (snap m))))
         else setFilterAgent m (nextFilter (Agents (snap m)) (filterAgent m))) 0
    else m.
Proof.
  unfold press.
  transitivity
    ((if filterable (activeView m) then
        (setScrollPos
           (if bool_decide (filterAgent m = []) && bool_decide (agentCount m > 0)
            then setFilterAgent m (default [] (agID <$> head (Agents (snap m))))
            else setFilterAgent m (nextFilter (Agents (snap m)) (filterAgent m))) 0,
         cmdNil)
      else (m, cmdNil)).1); [reflexivity|].
  by destruct (filterable _).
Qed.

(** In a list of agents with distinct ids, the filter after the one on
    the agent at index [k] is on the agent at index [k + 1], and none
    after the last agent. *)
Lemma nextFilter_lookup agents : ∀ k id,
  NoDup (map agID agents) → map agID agents !! k = Some id →
  nextFilter agents id = default [] (map agID agents !! S k).
Proof.
  induction agents as [|ag rest IH]; intros k id Hnd Hk; [done|].
  simpl in Hnd. apply NoDup_cons in Hnd as [Hnin Hnd]. simpl.
  case_bool_decide as Hid.
  - destruct k as [|k].
    + by destruct rest.
    + exfalso. apply Hnin. rewrite Hid. simpl in Hk.
      by apply list_elem_of_lookup_2 in Hk.
  - destruct k as [|k]; simpl in Hk; [congruence|].
    by apply IH.
Qed.

Lemma filter_presses (m : uiModel) :
  filterable (activeView m) = true → filterAgent m = [] →
  NoDup (map agID (Agents (snap m))) → [] ∉ map agID (Agents (snap m)) →
  ∀ k, (k ≤ length (Agents (snap m)))%nat →
    filterAgent (Nat.iter (S k) (press (str "/")) m)
      = default [] (map agID (Agents (snap m)) !! k) ∧
    snap (Nat.iter (S k) (press (str "/")) m) = snap m ∧
    activeView (Nat.iter (S k) (press (str "/")) m) = activeView m ∧
    scrollPos (Nat.iter (S k) (press (str "/")) m) = 0.
Proof.
  intros Hv Hnone Hnd Hne. induction k as [|k IH]; intros Hk.
  - simpl. rewrite press_filter, Hv, Hnone. unfold agentCount.
    destruct (Agents (snap m)) as [|ag rest]; simpl; done.
  - destruct IH as (Hfil & Hsn & Hav & _); [lia|].
    change (Nat.iter (S (S k)) (press (str "/")) m)
      with (press (str "/") (Nat.iter (S k) (press (str "/")) m)).
    rewrite press_filter, Hav, Hv.
    destruct (map agID (Agents (snap m)) !! k) as [id|] eqn:Hid.
    2:{ apply lookup_ge_None in Hid. rewrite length_map in Hid. lia. }
    change (default [] (Some id)) with id in Hfil.
    assert (id ≠ []) as Hidne.
    { intros ->. apply Hne. by apply list_elem_of_lookup_2 in Hid. }
    rewrite Hfil, (bool_decide_false _ Hidne).
    cbn [andb filterAgent snap activeView scrollPos setScrollPos setFilterAgent].
    rewrite Hsn. split; [|done]. by apply nextFilter_lookup.
Qed.

(** X14.  In the Messages and Timeline views, for agents with distinct
    ids none of which is empty, the filter key steps through the agents
    in the order of the snapshot: starting from no filter, press [k + 1]
    sets the filter to the agent at index [k], and one more press after
    the last agent clears it again.  Every press resets the scroll offset
    and leaves the view and the snapshot alone. *)
Theorem filter_key_cycles (m : uiModel) :
  filterable (activeView m) = true → filterAgent m = [] →
  NoDup (map agID (Agents (snap m))) → [] ∉ map agID (Agents (snap m)) →
  (∀ k ag, Agents (snap m) !! k = Some ag →
     filterAgent (Nat.iter (S k) (press (str "/")) m) = agID ag) ∧
  filterAgent (Nat.iter (S (length (Agents (snap m)))) (press (str "/")) m) = [] ∧
  (∀ k, (k ≤ length (Agents (snap m)))%nat →
     snap (Nat.iter (S k) (press (str "/")) m) = snap m ∧
     activeView (Nat.iter (S k) (press (str "/")) m) = activeView m ∧
     scrollPos (Nat.iter (S k) (press (str "/")) m) = 0).
Proof.
  intros Hv Hnone Hnd Hne.
  pose proof (filter_presses m Hv Hnone Hnd Hne) as Hall.
  split; [|split].
  - intros k ag Hk. destruct (Hall k) as [-> _].
    + apply lookup_lt_Some in Hk. lia.
    + by rewrite list_lookup_fmap, Hk.
  - destruct (Hall (length (Agents (snap m)))) as [-> _]; [lia|].
    rewrite lookup_ge_None_2; [done|]. by rewrite length_map.
  - intros k Hk. by destruct (Hall k Hk) as (_ & ? & ? & ?).
Qed.

Lemma filter_key_cycles_witness :
  filterAgent (Nat.iter 1 (press (str "/")) inMessages) = str "alice" ∧
  filterAgent (Nat.iter 2 (press (str "/")) inMessages) = str "bob" ∧
  filterAgent (Nat.iter 3 (press (str "/")) inMessages) = [].
Proof.
  destruct (filter_key_cycles inMessages) as (Hstep & Hlast & _).
  - reflexivity.
  - reflexivity.
  - apply (bool_decide_unpack _). vm_compute. exact I.
  - apply (bool_decide_unpack _). vm_compute. exact I.
  - change (length (Agents (snap inMessages))) with 2%nat in Hlast.
    rewrite (Hstep 0%nat alice eq_refl), (Hstep 1%nat bob eq_refl), Hlast.
    split; [reflexivity|]. split; reflexivity.
Defined.

(** *** Enter and Esc *)

Lemma press_enter m :
  press (str "enter") m =
    if bool_decide (activeView m = viewDashboard) && bool_decide (agentCount m > 0) then
      if bool_decide (selectedAgent m >= 0) && bool_decide (selectedAgent m < agentCount m) then
        match Agents (snap m) !! Z.to_nat (selectedAgent m) with
        | Some ag =>
            setScrollPos
              (setActiveView (setPrevView (setDetailAgentID m (agID ag)) (activeView m))
                 viewAgentDetail) 0
        | None => m
        end
      else m
    else m.
Proof.
  unfold press.
  transitivity
    ((if bool_decide (activeView m = viewDashboard) && bool_decide (agentCount m > 0) then
        if bool_decide (selectedAgent m >= 0) && bool_decide (selectedAgent m < agentCount m) then
          match Agents (snap m) !! Z.to_nat (selectedAgent m) with
          | Some ag =>
              (setScrollPos
                 (setActiveView (setPrevView (setDetailAgentID m (agID ag)) (activeView m))
                    viewAgentDetail) 0, cmdNil)
          | None => (m, cmdNil)
          end
        else (m, cmdNil)
      else (m, cmdNil)).1); [reflexivity|].
  by repeat case_match.
Qed.

Lemma press_esc m :
  press (str "esc") m =
    if bool_decide (activeView m = viewAgentDetail)
    then setScrollPos (setDetailAgentID (setActiveView m viewDashboard) []) 0
    else m.
Proof.
  unfold press.
  transitivity
    ((if bool_decide (activeView m = viewAgentDetail)
      then (setScrollPos (setDetailAgentID (setActiveView m viewDashboard) []) 0, cmdNil)
      else (m, cmdNil)).1); [reflexivity|].
  by case_bool_decide.
Qed.

(** X15.  On the Dashboard with the cursor on an agent, Enter opens the
    Agent-Detail view on that agent, and Esc then leads back to the
    Dashboard: the snapshot, the cursor and the filter are as before, the
    detail focus is empty and the scroll offset is 0.  Enter does nothing
    outside the Dashboard, and Esc nothing outside Agent-Detail. *)
Theorem enter_esc_round_trip (m : uiModel) :
  (∀ ag, activeView m = viewDashboard → 0 ≤ selectedAgent m →
     Agents (snap m) !! Z.to_nat (selectedAgent m) = Some ag →
     activeView (press (str "enter") m) = viewAgentDetail ∧
     detailAgentID (press (str "enter") m) = agID ag ∧
     press (str "esc") (press (str "enter") m) =
       setScrollPos (setDetailAgentID (setPrevView m viewDashboard) []) 0) ∧
  (activeView m ≠ viewDashboard → press (str "enter") m = m) ∧
  (activeView m ≠ viewAgentDetail → press (str "esc") m = m).
Proof.
  split; [|split].
  - intros ag Hv Hsel Hag. rewrite press_esc, press_enter.
    apply lookup_lt_Some in Hag as Hlt.
    rewrite (bool_decide_true (activeView m = viewDashboard)) by done.
    unfold agentCount.
    rewrite (bool_decide_true (Z.of_nat (length (Agents (snap m))) > 0)) by lia.
    rewrite (bool_decide_true (selectedAgent m >= 0)) by lia.
    rewrite (bool_decide_true (selectedAgent m < _)) by lia.
    cbn [andb]. rewrite Hag. cbn. rewrite Hv.
    split; [done|]. split; [done|].
    destruct m as [sn v pv w h sp sel det fil ri hw sh lr]. simpl in Hv. by subst v.
  - intros Hv. rewrite press_enter. by rewrite (bool_decide_false _ Hv).
  - intros Hv. rewrite press_esc. by rewrite (bool_decide_false _ Hv).
Qed.

Lemma enter_esc_round_trip_witness :
  detailAgentID (press (str "enter") onSecondAgent) = str "bob" ∧
  press (str "esc") (press (str "enter") onSecondAgent) = onSecondAgent.
Proof.
  destruct (proj1 (enter_esc_round_trip onSecondAgent) bob)
    as (_ & Hdet & Hback); [reflexivity|vm_compute; discriminate|reflexivity|].
  rewrite Hdet, Hback. split; reflexivity.
Defined.

(** *** What no message changes *)

(** X16.  Only a refresh that succeeded replaces the data: every other
    message, whatever the key, leaves the snapshot and the time of the
    last refresh as they were. *)
Theorem only_refresh_replaces_snapshot (now : Z) (m : uiModel) (msg : Msg) :
  (∀ sn, msg ≠ snapshotReadyMsg (Some sn) None) →
  snap (Update now m msg).1 = snap m ∧
  lastRefresh (Update now m msg).1 = lastRefresh m.
Proof.
  intros Hmsg.
  destruct msg as [key|w h| |newSnap err| |]; simpl; try done.
  - destruct (viewKeys key) as [v|].
    + by destruct (filterable v).
    + unfold updateKey. by repeat (case_match; simpl in *; try done).
  - destruct err as [e|]; [done|]. destruct newSnap as [sn|]; [|done].
    by destruct (Hmsg sn).
Qed.

Lemma only_refresh_replaces_snapshot_witness :
  snap (Update 5 onSecondAgent (KeyMsg (str "enter"))).1 = snapshotOf [alice; bob] ∧
  snap (Update 5 onSecondAgent (snapshotReadyMsg (Some (snapshotOf [alice])) (Some (str "busy")))).1
  = snapshotOf [alice; bob].
Proof.
  split.
  - apply (only_refresh_replaces_snapshot 5 onSecondAgent (KeyMsg (str "enter"))).
    intros sn. discriminate.
  - apply (only_refresh_replaces_snapshot 5 onSecondAgent
             (snapshotReadyMsg (Some (snapshotOf [alice])) (Some (str "busy")))).
    intros sn. discriminate.
Defined.

(** *** The start state *)

Lemma findAgent_first agents id : ∀ k,
  match findAgent agents id k with
  | Some (i, ag) =>
      (k ≤ i)%nat ∧ agents !! (i - k)%nat = Some ag ∧ agID ag = id ∧
      ∀ j, (j < i - k)%nat → agID <$> agents !! j ≠ Some id
  | None => id ∉ map agID agents
  end.
Proof.
  induction agents as [|a agents IH]; intros k; simpl.
  - apply not_elem_of_nil.
  - case_bool_decide as Ha.
    + split; [lia|]. rewrite Nat.sub_diag. split; [done|]. split; [done|].
      intros j ?. lia.
    + specialize (IH (S k)). destruct (findAgent agents id (S k)) as [[i ag]|].
      * destruct IH as (Hk & Hi & Hid & Hfirst). split; [lia|].
        replace (i - k)%nat with (S (i - S k)) by lia. split; [done|]. split; [done|].
        intros [|j] Hj; simpl; [congruence|]. apply Hfirst. lia.
      * rewrite not_elem_of_cons. done.
Qed.

(** X20.  Started with [--agent] naming an agent of the first snapshot,
    the program opens in the Agent-Detail view on that agent, whatever
    [--view] says, with the cursor on the first agent of that id; an id
    that no agent carries is ignored without a word, and the program
    starts as it would without the flag. *)
Theorem startModel_agent_flag (sn : DataSnapshot) (now refresh : Z)
    (viewFlag : option Z) (agentFlag : gostring) :
  (agentFlag ≠ [] → agentFlag ∈ map agID (Agents sn) →
     activeView (startModel sn now refresh viewFlag agentFlag) = viewAgentDetail ∧
     detailAgentID (startModel sn now refresh viewFlag agentFlag) = agentFlag ∧
     0 ≤ selectedAgent (startModel sn now refresh viewFlag agentFlag) ∧
     agID <$> Agents sn !! Z.to_nat (selectedAgent (startModel sn now refresh viewFlag agentFlag))
       = Some agentFlag ∧
     ∀ j, (j < Z.to_nat (selectedAgent (startModel sn now refresh viewFlag agentFlag)))%nat →
          agID <$> Agents sn !! j ≠ Some agentFlag) ∧
  (agentFlag ∉ map agID (Agents sn) →
     startModel sn now refresh viewFlag agentFlag = startModel sn now refresh viewFlag []).
Proof.
  pose proof (findAgent_first (Agents sn) agentFlag 0) as Hfind.
  unfold startModel. split.
  - intros Hne Hin. rewrite bool_decide_true by done.
    destruct (findAgent (Agents sn) agentFlag 0) as [[i ag]|]; [|done].
    destruct Hfind as (_ & Hi & Hid & Hfirst). rewrite Nat.sub_0_r in Hi, Hfirst.
    destruct viewFlag; simpl; rewrite Nat2Z.id, Hi; simpl; rewrite Hid;
      (split; [done|]); (split; [done|]); (split; [lia|]); done.
  - intros Hnin. rewrite (bool_decide_false ([] ≠ [])) by (intros H; by apply H).
    case_bool_decide; [|done].
    destruct (findAgent (Agents sn) agentFlag 0) as [[i ag]|]; [|done].
    destruct Hfind as (_ & Hi & Hid & _). exfalso. apply Hnin.
    apply list_elem_of_fmap. exists ag. split; [done|]. by apply list_elem_of_lookup_2 in Hi.
Qed.

Lemma startModel_agent_flag_witness :
  activeView (startModel (snapshotOf [alice; bob]) 0 2 (Some viewLocks) (str "bob"))
    = viewAgentDetail ∧
  selectedAgent (startModel (snapshotOf [alice; bob]) 0 2 (Some viewLocks) (str "bob")) = 1 ∧
  startModel (snapshotOf [alice; bob]) 0 2 (Some viewLocks) (str "carol")
    = startModel (snapshotOf [alice; bob]) 0 2 (Some viewLocks) [].
Proof.
  destruct (startModel_agent_flag (snapshotOf [alice; bob]) 0 2 (Some viewLocks) (str "bob"))
    as [Hfound _].
  destruct Hfound as (Hview & _); [discriminate|right; left|].
  split; [exact Hview|]. split; [reflexivity|].
  apply (proj2 (startModel_agent_flag (snapshotOf [alice; bob]) 0 2 (Some viewLocks)
                  (str "carol"))).
  apply (bool_decide_unpack _). vm_compute. exact I.
Defined.

End KeysProps.

(** ** Change watcher *)

Module WatchProps.
Import Snapshot Watch.

Lemma notifyTimes_times trace t : t ∈ notifyTimes trace → t ∈ map fst trace.
Proof.
  unfold notifyTimes. rewrite list_elem_of_omap. intros ([t' a] & Hin & Ha).
  apply list_elem_of_fmap. exists (t', a). split; [|done].
  simpl in Ha. destruct a as [[| |]|]; by inversion Ha.
Qed.

Lemma last_app_cons {A} (l1 l2 : list A) x : last (l1 ++ x :: l2) = last (x :: l2).
Proof.
  induction l1 as [|y l1 IH]; [done|].
  simpl. rewrite <- IH. by destruct (l1 ++ x :: l2) eqn:Heq; [destruct l1|].
Qed.

(** No timer fires before its time. *)
Lemma elapse_quiet w now st :
  Forall (λ p : nat * Z, now < p.2) (pending st) → elapse w now st = st.
Proof.
  intros Hall. unfold elapse.
  assert (filter (λ p : nat * Z, p.2 ≤ now) (pending st) = []) as ->.
  { induction Hall as [|p l Hp _ IH]; [done|].
    rewrite filter_cons_False by lia. done. }
  assert (filter (λ p : nat * Z, ¬ p.2 ≤ now) (pending st) = pending st) as ->.
  { induction Hall as [|p l Hp _ IH]; [done|].
    rewrite filter_cons_True by lia. by rewrite IH. }
  by destruct st.
Qed.

(** The one pending timer fires when its time has come. *)
Lemma elapse_fire w now st id deadline :
  pending st = [(id, deadline)] → deadline ≤ now →
  elapse w now st =
    signal w (mkState (timer st) [] (started st) (onChange st) (running st)
                (sent st) (skipped st)).
Proof.
  intros Hp Hdue. unfold elapse. rewrite Hp.
  rewrite (filter_cons_True (λ p : nat * Z, p.2 ≤ now)) by (simpl; lia).
  rewrite (filter_cons_False (λ p : nat * Z, ¬ p.2 ≤ now)) by (simpl; lia).
  done.
Qed.

Section Loop.

Variable Base : gostring → gostring.
Variables Write Create : Z.

Abbreviation loopStep := (loopStep Base Write Create).
Abbreviation step := (step Base Write Create).
Abbreviation run := (run Base Write Create).
Abbreviation relevant := (relevant Base Write Create).
Abbreviation burstEntry := (burstEntry Base Write Create).

(** A relevant notification stops the timer of the variable and starts a
    new one, which fires [debounce] after the notification. *)
Lemma loopStep_relevant w now st ev :
  running st = true → relevant w ev →
  loopStep w now st (inEvent ev true) =
    mkState (Some (started st)) (stopTimer st ++ [(started st, now + debounce w)])
            (S (started st)) (onChange st) true (sent st) (skipped st).
Proof.
  intros Hrun [Hname Hop]. unfold Watch.loopStep. rewrite Hrun. simpl.
  assert (otherFile Base w ev = false) as ->.
  { unfold otherFile. rewrite !andb_false_iff, !bool_decide_eq_false.
    destruct Hname as [?|[?|?]]; [left; left|left; right|right];
      intros Hne; by apply Hne. }
  assert (otherOp Write Create ev = false) as ->.
  { unfold otherOp. by rewrite bool_decide_eq_false. }
  done.
Qed.

(** A notification to another file, or of another kind, changes nothing. *)
Lemma loopStep_other w now st ev :
  ¬ relevant w ev → loopStep w now st (inEvent ev true) = st.
Proof.
  intros Hrel. unfold Watch.loopStep. destruct (running st); [|done]. simpl.
  destruct (otherFile Base w ev) eqn:Hfile; [done|].
  destruct (otherOp Write Create ev) eqn:Hop; [done|].
  exfalso. apply Hrel. split.
  - unfold otherFile in Hfile.
    rewrite !andb_false_iff, !bool_decide_eq_false in Hfile.
    destruct Hfile as [[Hn|Hn]|Hn].
    + left. by destruct (decide (Base (evName ev) = Base (dbPath w))); [|destruct Hn].
    + right. left.
      by destruct (decide (Base (evName ev) = Base (dbPath w) ++ str "-wal"));
        [|destruct Hn].
    + right. right.
      by destruct (decide (Base (evName ev) = Base (dbPath w) ++ str "-shm"));
        [|destruct Hn].
  - unfold otherOp in Hop. by apply bool_decide_eq_false in Hop.
Qed.

(** While every entry comes before the timer in force fires, no timer
    fires: the loop only replaces the timer, the reader only takes
    signals. *)
Lemma run_within_window w trace : ∀ st (armed : option Z),
  running st = true →
  inForce w armed st →
  Forall (burstEntry w) trace →
  StronglySorted Z.le (map fst trace) →
  Sorted (λ t t', t' < t + debounce w) (option_list armed ++ notifyTimes trace) →
  Forall (λ entry : Z * Action,
            ∀ tn, last (option_list armed ++ notifyTimes trace) = Some tn →
                  entry.1 < tn + debounce w) trace →
  running (run w st trace) = true ∧
  sent (run w st trace) = sent st ∧
  skipped (run w st trace) = skipped st ∧
  (onChange (run w st trace) ≤ onChange st)%nat ∧
  inForce w (last (option_list armed ++ notifyTimes trace)) (run w st trace).
Proof.
  induction trace as [|[t a] rest IH]; intros st armed Hrun Htimer Hall Htimes Hgap Hend.
  - simpl. rewrite app_nil_r. split; [done|]. split; [done|]. split; [done|].
    split; [lia|]. by destruct armed.
  - apply Forall_cons in Hall as [Ha Hall].
    apply Forall_cons in Hend as [Hnow Hend].
    simpl in Htimes. apply StronglySorted_inv in Htimes as [Htimes Hlater].
    assert (elapse w t st = st) as Hquiet.
    { apply elapse_quiet. destruct armed as [t0|]; simpl in Htimer.
      2:{ rewrite Htimer. constructor. }
      destruct Htimer as (id & _ & ->). apply Forall_singleton. simpl.
      destruct Ha as [Ha|(ev & Ha & _)]; simpl in Ha; subst a.
      - simpl in Hgap, Hnow.
        change (notifyTimes ((t, Receive) :: rest)) with (notifyTimes rest) in Hgap, Hnow.
        destruct (notifyTimes rest) as [|t' ts] eqn:Hts.
        + specialize (Hnow t0 eq_refl). simpl in Hnow. lia.
        + apply Sorted_inv in Hgap as [_ Hhd]. apply HdRel_inv in Hhd.
          assert (t ≤ t'); [|lia].
          rewrite Forall_forall in Hlater. apply Hlater.
          apply notifyTimes_times. rewrite Hts. left.
      - simpl in Hgap.
        change (notifyTimes ((t, Loop (inEvent ev true)) :: rest))
          with (t :: notifyTimes rest) in Hgap.
        apply Sorted_inv in Hgap as [_ Hhd]. apply HdRel_inv in Hhd. lia. }
    change (run w st ((t, a) :: rest)) with (run w (step w st (t, a)) rest).
    unfold Watch.step. cbn [fst snd]. rewrite Hquiet.
    destruct Ha as [Ha|(ev & Ha & Hrel)]; simpl in Ha; subst a.
    + change (notifyTimes ((t, Receive) :: rest)) with (notifyTimes rest) in *.
      destruct (IH (receive st) armed) as (H1 & H2 & H3 & H4 & H5); try done.
      split; [done|]. split; [done|]. split; [done|]. split; [|done].
      simpl in H4. lia.
    + change (notifyTimes ((t, Loop (inEvent ev true)) :: rest))
        with (t :: notifyTimes rest) in *.
      rewrite loopStep_relevant by done.
      assert (last (option_list armed ++ t :: notifyTimes rest)
              = last (option_list (Some t) ++ notifyTimes rest)) as Hlast
        by apply last_app_cons.
      rewrite Hlast in *.
      destruct (IH (mkState (Some (started st))
                      (stopTimer st ++ [(started st, t + debounce w)])
                      (S (started st)) (onChange st) true (sent st) (skipped st))
                   (Some t)) as (H1 & H2 & H3 & H4 & H5); try done.
      * simpl. exists (started st). split; [done|].
        unfold stopTimer. destruct armed as [t0|]; simpl in Htimer.
        -- destruct Htimer as (id & -> & ->).
           rewrite filter_cons_False by (simpl; intros Hne; by apply Hne). done.
        -- rewrite Htimer. by destruct (timer st).
      * destruct armed as [t0|]; simpl in Hgap; [|done].
        by apply Sorted_inv in Hgap as [? _].
Qed.

(** C9.  A burst: write-or-create notifications to the database file,
    its "-wal" or its "-shm" file, in the order of time, each less than
    the debounce time after the one before, so in particular all within
    one debounce window; the reader may take signals meanwhile.  For a
    watcher made by [NewWatcher] whose loop runs with no timer pending,
    nothing is sent while the burst lasts and before the window closes,
    that is before the debounce time has passed since the last
    notification.  When it closes exactly one timer fires: if the channel
    is empty the one signal is sent, if it still holds a signal nothing is
    added, and either way the channel then holds exactly one signal, no
    timer is pending and nothing more happens as time passes. *)
Theorem burst_emits_one_signal (newErr addErr : option gostring) (path : gostring)
    (w : Watcher) (st0 : State) (trace : list (Z * Action)) (tn : Z) :
  NewWatcher newErr addErr path = Ok w →
  running st0 = true → pending st0 = [] → (onChange st0 ≤ 1)%nat →
  Forall (burstEntry w) trace →
  Sorted Z.le (map fst trace) →
  Sorted (λ t t', t' < t + debounce w) (notifyTimes trace) →
  last (notifyTimes trace) = Some tn →
  Forall (λ entry : Z * Action, entry.1 < tn + debounce w) trace →
  sent (run w st0 trace) = sent st0 ∧
  skipped (run w st0 trace) = skipped st0 ∧
  (∀ T, T < tn + debounce w → elapse w T (run w st0 trace) = run w st0 trace) ∧
  (∀ T, tn + debounce w ≤ T →
     pending (elapse w T (run w st0 trace)) = [] ∧
     onChange (elapse w T (run w st0 trace)) = 1%nat ∧
     (sent (elapse w T (run w st0 trace)) + skipped (elapse w T (run w st0 trace))
      = sent st0 + skipped st0 + 1)%nat ∧
     (onChange (run w st0 trace) = 0%nat →
        sent (elapse w T (run w st0 trace)) = S (sent st0) ∧
        skipped (elapse w T (run w st0 trace)) = skipped st0) ∧
     (onChange (run w st0 trace) = 1%nat →
        sent (elapse w T (run w st0 trace)) = sent st0 ∧
        skipped (elapse w T (run w st0 trace)) = S (skipped st0)) ∧
     (∀ T', elapse w T' (elapse w T (run w st0 trace))
            = elapse w T (run w st0 trace))).
Proof.
  intros Hnew Hrun Htimer Hcap Hall Htimes Hgap Hlast Hend.
  assert (onChangeCap w = 1%nat) as Hone.
  { unfold NewWatcher in Hnew. destruct newErr; [done|]. destruct addErr; [done|].
    by injection Hnew as <-. }
  destruct (run_within_window w trace st0 None) as (H1 & H2 & H3 & H4 & H5);
    try done.
  { apply Sorted_StronglySorted; [intros x y z; lia|done]. }
  { apply Forall_forall. intros entry Hin tn' Htn'. simpl in Htn'.
    rewrite Hlast in Htn'. injection Htn' as <-.
    rewrite Forall_forall in Hend. by apply Hend. }
  simpl in H5. rewrite Hlast in H5. destruct H5 as (id & Hvar & Hpending).
  split; [done|]. split; [done|]. split.
  - intros T HT. apply elapse_quiet. rewrite Hpending.
    apply Forall_singleton. simpl. lia.
  - intros T HT. rewrite (elapse_fire w T _ id (tn + debounce w)) by done.
    unfold signal. simpl. rewrite Hone, H2, H3.
    case_bool_decide as Hempty; simpl.
    + assert (onChange (run w st0 trace) = 0%nat) as Hzero by lia.
      rewrite Hzero. split; [done|]. split; [done|]. split; [lia|].
      split; [done|]. split; [done|]. intros T'. by apply elapse_quiet.
    + assert (onChange (run w st0 trace) = 1%nat) as Hfull by lia.
      rewrite Hfull. split; [done|]. split; [done|]. split; [lia|].
      split; [done|]. split; [done|]. intros T'. by apply elapse_quiet.
Qed.

End Loop.

Lemma burst_emits_one_signal_witness :
  sent (elapse (mkWatcher (str "clockmail.db") debounceWindow 1) 160000000
          (run id 2 1 (mkWatcher (str "clockmail.db") debounceWindow 1)
             signalled threeWrites)) = 2%nat ∧
  onChange (elapse (mkWatcher (str "clockmail.db") debounceWindow 1) 160000000
              (run id 2 1 (mkWatcher (str "clockmail.db") debounceWindow 1)
                 signalled threeWrites)) = 1%nat.
Proof.
  destruct (burst_emits_one_signal id 2 1 None None (str "clockmail.db")
              (mkWatcher (str "clockmail.db") debounceWindow 1) signalled threeWrites
              60000000) as (_ & _ & _ & Hsettled).
  - reflexivity.
  - reflexivity.
  - reflexivity.
  - simpl. lia.
  - unfold threeWrites. repeat apply Forall_cons_2; try apply Forall_nil_2.
    + right. eexists. split; [reflexivity|]. split; [right; left; reflexivity|].
      vm_compute. discriminate.
    + right. eexists. split; [reflexivity|]. split; [left; reflexivity|].
      vm_compute. discriminate.
    + by left.
    + right. eexists. split; [reflexivity|]. split; [right; left; reflexivity|].
      vm_compute. discriminate.
  - unfold threeWrites. simpl. repeat constructor; lia.
  - unfold threeWrites, notifyTimes, debounceWindow. simpl. repeat constructor; lia.
  - reflexivity.
  - unfold threeWrites, debounceWindow. simpl. repeat constructor; simpl; lia.
  - destruct (Hsettled 160000000) as (_ & Hchan & _ & Hsent & _).
    { unfold debounceWindow. simpl. lia. }
    split; [|exact Hchan]. apply Hsent. reflexivity.
Defined.

(** The same three writes with the earlier signal left in the channel:
    the timer fires, and nothing is added. *)
Example burst_keeps_pending_signal :
  elapse (mkWatcher (str "clockmail.db") debounceWindow 1) 160000000
    (run id 2 1 (mkWatcher (str "clockmail.db") debounceWindow 1) signalled
       (take 2 threeWrites ++ drop 3 threeWrites))
  = mkState (Some 3%nat) [] 4 1 true 1 1.
Proof. reflexivity. Qed.

End WatchProps.
